(** * typed-emit: a shallow embedding of [TypedEventEmitter]

    The class of [typed-event-emitter.ts] keeps one private field,
    [listeners : Map<string, Set<(payload) => unknown>>].  The [Set] objects
    are shared by reference: the closure returned by [on] captures the [Set]
    it added to, not the key it looked up.  The embedding therefore has an
    explicit heap of [Set] objects and the [Map] holds addresses into it.

    Listeners are user code.  A user listener is a program over the
    emitter's public methods (a free monad over the API), so it may call
    back into the emitter while an emission is in progress.  Re-entrant
    emission need not terminate, hence invocation takes fuel.

    [emitAsync] is split along its promise chain: the method takes the
    snapshot and queues one microtask per listener; a microtask calls its
    listener and records the completion in its slot; the promise returned
    is read off the slots with [then] and [Promise.all].  Promises made by
    user code are settled by the environment.

    Two fields of the state only observe: a counter of [emit] calls and a
    log of which emission invoked which listener with which payload.  The
    log holds the calls that [emit] and the microtasks of [emitAsync] make,
    of members of listener sets; the call that a wrapper of [once] makes of
    its listener is not logged.

    The program comes first, then the vocabulary of the properties, then
    the lemmas, then the claims. *)

From stdpp Require Import base option list gmap strings pretty.
From Stdlib Require Import ZArith Lia.

(** ** JavaScript values, event identifiers, functions *)

Inductive Value :=
| VUndefined
| VBool (b : bool)
| VNum (n : Z)
| VStr (s : string)
| VError (msg : string)
| VPromise (p : nat).

(** [EventNames<T> = keyof T & (string | number | symbol)].  A symbol has an
    identity and a description.  For numbers, [ENum n] stands for an
    integer [n] that a double holds exactly and whose magnitude is below
    1e21, where [String] prints all the digits.  Other numbers (fractions,
    NaN, the infinities, -0, magnitudes from 1e21 on, which [String] prints
    with an exponent) are not modelled: as keys they behave like the
    string that [String] makes of them, which [EStr] covers.  The
    properties below hold for every key, whatever [String] prints; only
    the small numbers named in examples are evaluated. *)
Inductive EventId :=
| EStr (s : string)
| ENum (n : Z)
| ESym (id : nat) (description : string).

(** [String(event)], the conversion every method applies first; for
    [ENum n] on the integers described above. *)
Definition js_String (event : EventId) : string :=
  match event with
  | EStr s => s
  | ENum n => pretty n
  | ESym _ d => ("Symbol(" +:+ d +:+ ")")%string
  end.

(** Function objects compared by identity: a user function, or the arrow
    function that [once] allocates on each call. *)
Inductive Fn :=
| FUser (u : nat)
| FOnce (w : nat).

Global Instance Value_eq_dec : EqDecision Value.
Proof. solve_decision. Defined.
Global Instance EventId_eq_dec : EqDecision EventId.
Proof. solve_decision. Defined.
Global Instance Fn_eq_dec : EqDecision Fn.
Proof. solve_decision. Defined.

(** How a call ends. *)
Inductive Completion :=
| Normal (v : Value)
| Throw (e : Value).

(** ** [Set], insertion ordered *)

Module JSSet.
Abbreviation t := (list Fn) (only parsing).

Definition add (x : Fn) (s : t) : t :=
  if decide (x ∈ s) then s else s ++ [x].

Definition delete (x : Fn) (s : t) : t :=
  filter (λ y, y ≠ x) s.

Definition has (x : Fn) (s : t) : bool := bool_decide (x ∈ s).

Definition size (s : t) : nat := length s.

Definition Array_from (s : t) : list Fn := s.
End JSSet.

(** ** Promises

    A promise is pending ([None]) or settled. *)

Inductive Settled (A : Type) :=
| Fulfilled (a : A)
| Rejected (e : Value).
Arguments Fulfilled {A} a.
Arguments Rejected {A} e.

Definition PState (A : Type) := option (Settled A).

(** [p.then(onFulfilled, onRejected)] for handlers that return plain
    values and do not throw. *)
Definition then2 {A B} (on_ok : A → B) (on_err : Value → B)
    (p : PState A) : PState B :=
  match p with
  | None => None
  | Some (Fulfilled a) => Some (Fulfilled (on_ok a))
  | Some (Rejected e) => Some (Fulfilled (on_err e))
  end.

(** [Promise.all]: rejected as soon as an input is rejected (the reason
    taken here is that of the lowest rejected index), fulfilled with the
    values in input order once every input is fulfilled, pending
    otherwise. *)
Fixpoint first_rejection {A} (ps : list (PState A)) : option Value :=
  match ps with
  | [] => None
  | Some (Rejected e) :: _ => Some e
  | _ :: ps' => first_rejection ps'
  end.

Fixpoint all_fulfilled {A} (ps : list (PState A)) : option (list A) :=
  match ps with
  | [] => Some []
  | Some (Fulfilled a) :: ps' =>
      match all_fulfilled ps' with
      | Some l => Some (a :: l)
      | None => None
      end
  | _ :: _ => None
  end.

Definition Promise_all {A} (ps : list (PState A)) : PState (list A) :=
  match first_rejection ps with
  | Some e => Some (Rejected e)
  | None =>
      match all_fulfilled ps with
      | Some l => Some (Fulfilled l)
      | None => None
      end
  end.

(** [type EmitOutcome = { ok: true; value } | { ok: false; error }] *)
Inductive EmitOutcome :=
| Ok (value : Value)
| Err (error : Value).

(** ** The emitter and what surrounds it *)

(** The closure [() => { set.delete(listener); if (set.size === 0)
    this.listeners.delete(key); }] returned by [on]: its captured
    variables. *)
Record Unsub := mkUnsub {
  u_key : string;
  u_set : nat;
  u_listener : Fn
}.

(** The arrow function allocated by [once]: it captures [listener] and
    [unsubscribe]. *)
Record Wrapper := mkWrapper {
  w_listener : Fn;
  w_unsubscribe : nat
}.

(** Which emission invoked a listener: the n-th call of [emit], or the
    [emitAsync] call that returned promise [p]. *)
Inductive Emission :=
| Sync (n : nat)
| Async (p : nat).

Global Instance Emission_eq_dec : EqDecision Emission.
Proof. solve_decision. Defined.

Record Invocation := mkInvocation {
  inv_emission : Emission;
  inv_listener : Fn;
  inv_data : Value
}.

(** One element of [promises] in [emitAsync]: the listener and payload its
    microtask will use, and how the call ended once the microtask ran. *)
Record Slot := mkSlot {
  slot_listener : Fn;
  slot_data : Value;
  slot_result : option Completion
}.

Record State := mkState {
  (* the object graph *)
  heap : list JSSet.t;              (* the Set objects, by address *)
  listeners : gmap string nat;      (* this.listeners *)
  unsubs : list Unsub;              (* the closures returned by on *)
  wrappers : list Wrapper;          (* the closures allocated by once *)
  (* the asynchronous side *)
  asyncs : list (list Slot);        (* one entry per emitAsync call *)
  queue : list (nat * nat);         (* microtasks: (promise, index) *)
  promises : gmap nat (Settled Value); (* user promises settled so far *)
  (* observation only *)
  emissions : nat;                  (* number of emit calls so far *)
  log : list Invocation             (* listener invocations, oldest first *)
}.

Definition fresh : State :=
  mkState [] ∅ [] [] [] [] ∅ 0 [].

Definition set_heap (f : list JSSet.t → list JSSet.t) (st : State) : State :=
  mkState (f (heap st)) (listeners st) (unsubs st) (wrappers st)
          (asyncs st) (queue st) (promises st) (emissions st) (log st).
Definition set_listeners (f : gmap string nat → gmap string nat)
    (st : State) : State :=
  mkState (heap st) (f (listeners st)) (unsubs st) (wrappers st)
          (asyncs st) (queue st) (promises st) (emissions st) (log st).
Definition set_unsubs (f : list Unsub → list Unsub) (st : State) : State :=
  mkState (heap st) (listeners st) (f (unsubs st)) (wrappers st)
          (asyncs st) (queue st) (promises st) (emissions st) (log st).
Definition set_wrappers (f : list Wrapper → list Wrapper)
    (st : State) : State :=
  mkState (heap st) (listeners st) (unsubs st) (f (wrappers st))
          (asyncs st) (queue st) (promises st) (emissions st) (log st).
Definition set_asyncs (f : list (list Slot) → list (list Slot))
    (st : State) : State :=
  mkState (heap st) (listeners st) (unsubs st) (wrappers st)
          (f (asyncs st)) (queue st) (promises st) (emissions st) (log st).
Definition set_queue (f : list (nat * nat) → list (nat * nat))
    (st : State) : State :=
  mkState (heap st) (listeners st) (unsubs st) (wrappers st)
          (asyncs st) (f (queue st)) (promises st) (emissions st) (log st).
Definition set_promises
    (f : gmap nat (Settled Value) → gmap nat (Settled Value))
    (st : State) : State :=
  mkState (heap st) (listeners st) (unsubs st) (wrappers st)
          (asyncs st) (queue st) (f (promises st)) (emissions st) (log st).
Definition set_emissions (f : nat → nat) (st : State) : State :=
  mkState (heap st) (listeners st) (unsubs st) (wrappers st)
          (asyncs st) (queue st) (promises st) (f (emissions st)) (log st).
Definition set_log (f : list Invocation → list Invocation)
    (st : State) : State :=
  mkState (heap st) (listeners st) (unsubs st) (wrappers st)
          (asyncs st) (queue st) (promises st) (emissions st) (f (log st)).

(** Dereference a [Set] address. *)
Definition set_at (st : State) (a : nat) : JSSet.t :=
  default [] (heap st !! a).

(** The listener set of an event as the emitter sees it: the [Set] stored
    under [String(event)], none when the key is absent. *)
Definition listeners_of (st : State) (key : string) : JSSet.t :=
  match listeners st !! key with
  | Some a => set_at st a
  | None => []
  end.

(** ** The methods that do not call listeners *)

(** The body shared by [off] and by the closure returned by [on], once the
    [Set] to work on is known:
    [set.delete(listener); if (set.size === 0) this.listeners.delete(key)] *)
Definition delete_from (key : string) (a : nat) (listener : Fn)
    (st : State) : State :=
  let st1 := set_heap (alter (JSSet.delete listener) a) st in
  if decide (JSSet.size (set_at st1 a) = 0)
  then set_listeners (delete key) st1
  else st1.

(** [off]: [false] without a [Set] under the key, else whether
    [set.delete] found the listener. *)
Definition off (event : EventId) (listener : Fn) (st : State)
    : bool * State :=
  let key := js_String event in
  match listeners st !! key with
  | None => (false, st)
  | Some a =>
      let removed := JSSet.has listener (set_at st a) in
      (removed, delete_from key a listener st)
  end.

(** Calling the closure number [h] returned by [on]. *)
Definition unsubscribe (h : nat) (st : State) : State :=
  match unsubs st !! h with
  | Some u => delete_from (u_key u) (u_set u) (u_listener u) st
  | None => st
  end.

(** [on]: a new [Set] is allocated and stored when the key has none; the
    listener is added to the [Set] stored under the key; the closure
    returned captures that [Set], the listener and the key. *)
Definition on (event : EventId) (listener : Fn) (st : State)
    : nat * State :=
  let key := js_String event in
  let st1 :=
    match listeners st !! key with
    | Some _ => st
    | None =>
        set_listeners (insert key (length (heap st)))
          (set_heap (λ h, h ++ [[]]) st)
    end in
  match listeners st1 !! key with
  | Some a =>
      let st2 := set_heap (alter (JSSet.add listener) a) st1 in
      (length (unsubs st2),
       set_unsubs (λ us, us ++ [mkUnsub key a listener]) st2)
  | None => (length (unsubs st1), st1)
  end.

(** [once]: the wrapper is allocated first and registered with [on]; the
    closure it captures is the one [on] returns. *)
Definition once (event : EventId) (listener : Fn) (st : State)
    : nat * State :=
  let w := length (wrappers st) in
  let '(h, st1) := on event (FOnce w) st in
  (h, set_wrappers (λ ws, ws ++ [mkWrapper listener h]) st1).

(** [clear]: [this.listeners.clear()] without an argument, else
    [this.listeners.delete(String(event))]; no [Set] is written to. *)
Definition clear (event : option EventId) (st : State) : State :=
  match event with
  | None => set_listeners (λ _, ∅) st
  | Some e => set_listeners (delete (js_String e)) st
  end.

Definition listenerCount (event : EventId) (st : State) : nat :=
  match listeners st !! js_String event with
  | Some a => JSSet.size (set_at st a)
  | None => 0
  end.

Definition hasListeners (event : EventId) (st : State) : bool :=
  bool_decide (0 < listenerCount event st).

(** [payload[0]] of the rest parameter: [undefined] when the argument was
    omitted. *)
Definition first_arg (payload : list Value) : Value :=
  default VUndefined (payload !! 0).

Definition log_invocation (id : Emission) (l : Fn) (data : Value)
    (st : State) : State :=
  set_log (λ lg, lg ++ [mkInvocation id l data]) st.

(** [emitAsync] up to its [return]: the snapshot, one promise chain per
    listener (each [Promise.resolve().then(...)] queues its microtask at
    once), and the promise of [Promise.all]. *)
Definition emitAsync (event : EventId) (payload : list Value) (st : State)
    : nat * State :=
  let key := js_String event in
  let p := length (asyncs st) in
  match listeners st !! key with
  | None => (p, set_asyncs (λ l, l ++ [[]]) st)
  | Some a =>
      let data := first_arg payload in
      let ls := JSSet.Array_from (set_at st a) in
      let slots := map (λ l, mkSlot l data None) ls in
      (p, set_queue (λ q, q ++ map (λ i, (p, i)) (seq 0 (length ls)))
            (set_asyncs (λ l, l ++ [slots]) st))
  end.

(** The promise [.then(() => l(data))] of one slot: pending until the
    microtask ran, then rejected with what the listener threw, or resolved
    with what it returned, adopting the state of a returned promise. *)
Definition slot_promise (st : State) (s : Slot) : PState Value :=
  match slot_result s with
  | None => None
  | Some (Throw e) => Some (Rejected e)
  | Some (Normal (VPromise p)) => promises st !! p
  | Some (Normal v) => Some (Fulfilled v)
  end.

(** The state of the promise returned by the [emitAsync] call number [p]. *)
Definition emitAsync_result (st : State) (p : nat)
    : PState (list EmitOutcome) :=
  match asyncs st !! p with
  | Some slots => Promise_all (map (λ s, then2 Ok Err (slot_promise st s)) slots)
  | None => None
  end.

(** ** User code

    What a listener (or a top-level script) does to the emitter: a tree of
    method calls, each continuation receiving what the method returned.  A
    throwing [emit] is handed to the continuation as [RThrew], which either
    goes on (the call stood in a [try]) or ends with [Ret (Throw e)]. *)

Inductive Op :=
| OOn (event : EventId) (u : nat)
| OOnce (event : EventId) (u : nat)
| OOff (event : EventId) (u : nat)
| OClear (event : option EventId)
| OListenerCount (event : EventId)
| OHasListeners (event : EventId)
| OEmit (event : EventId) (payload : list Value)
| OEmitAsync (event : EventId) (payload : list Value)
| OUnsubscribe (h : nat).

Inductive Reply :=
| RVoid
| RBool (b : bool)
| RCount (n : nat)
| RUnsubscribe (h : nat)
| RPromise (p : nat)
| RThrew (e : Value).

Inductive Prog :=
| Ret (c : Completion)
| Do (op : Op) (k : Reply → Prog).

(** The type of "call this function object with this argument". *)
Definition Caller := Fn → Value → State → option (Completion * State).

(** ** The methods that call listeners, over any way of calling *)

Section Calling.
Variable callf : Caller.

(** [listeners.forEach((l) => l(data))]: in order, stopping at the first
    listener that throws. *)
Fixpoint forEach (id : Emission) (data : Value) (ls : list Fn)
    (st : State) : option (Completion * State) :=
  match ls with
  | [] => Some (Normal VUndefined, st)
  | l :: ls' =>
      match callf l data (log_invocation id l data st) with
      | None => None
      | Some (Throw e, st') => Some (Throw e, st')
      | Some (Normal _, st') => forEach id data ls' st'
      end
  end.

(** [emit]: nothing without a [Set] under the key, else [forEach] over
    [Array.from(set)], the snapshot. *)
Definition emit (event : EventId) (payload : list Value) (st : State)
    : option (Completion * State) :=
  let key := js_String event in
  match listeners st !! key with
  | Some a =>
      let data := first_arg payload in
      let ls := JSSet.Array_from (set_at st a) in
      forEach (Sync (emissions st)) data ls (set_emissions S st)
  | None => Some (Normal VUndefined, st)
  end.

(** One method call of user code. *)
Definition exec (op : Op) (st : State) : option (Reply * State) :=
  match op with
  | OOn e u => let '(h, st') := on e (FUser u) st in Some (RUnsubscribe h, st')
  | OOnce e u =>
      let '(h, st') := once e (FUser u) st in Some (RUnsubscribe h, st')
  | OOff e u => let '(b, st') := off e (FUser u) st in Some (RBool b, st')
  | OClear e => Some (RVoid, clear e st)
  | OListenerCount e => Some (RCount (listenerCount e st), st)
  | OHasListeners e => Some (RBool (hasListeners e st), st)
  | OEmit e payload =>
      match emit e payload st with
      | None => None
      | Some (Normal _, st') => Some (RVoid, st')
      | Some (Throw err, st') => Some (RThrew err, st')
      end
  | OEmitAsync e payload =>
      let '(p, st') := emitAsync e payload st in Some (RPromise p, st')
  | OUnsubscribe h => Some (RVoid, unsubscribe h st)
  end.

(** User code, run to its completion. *)
Fixpoint run (prog : Prog) (st : State) : option (Completion * State) :=
  match prog with
  | Ret c => Some (c, st)
  | Do op k =>
      match exec op st with
      | None => None
      | Some (r, st') => run (k r) st'
      end
  end.

(** The arrow function of [once]:
    [(payload) => { try { listener(payload) } finally { unsubscribe() } }].
    It has no [return], so it yields [undefined] unless [listener]
    threw. *)
Definition call_wrapper (wr : Wrapper) (payload : Value) (st : State)
    : option (Completion * State) :=
  match callf (w_listener wr) payload st with
  | None => None
  | Some (c, st') =>
      let st'' := unsubscribe (w_unsubscribe wr) st' in
      match c with
      | Normal _ => Some (Normal VUndefined, st'')
      | Throw e => Some (Throw e, st'')
      end
  end.

(** Record how the call of slot [i] of promise [p] ended. *)
Definition store_result (p i : nat) (c : Completion) (st : State) : State :=
  set_asyncs
    (alter (alter (λ s, mkSlot (slot_listener s) (slot_data s) (Some c)) i) p)
    st.

(** One microtask of [emitAsync], the callback [() => l(data)] at the head
    of the queue: it calls its listener and the completion settles the
    promise of its slot.  A listener that throws does not stop the
    microtasks behind it. *)
Definition run_microtask (st : State) : option State :=
  match queue st with
  | [] => Some st
  | (p, i) :: q =>
      let st1 := set_queue (λ _, q) st in
      match asyncs st !! p ≫= (λ slots, slots !! i) with
      | None => Some st1
      | Some s =>
          let l := slot_listener s in
          let data := slot_data s in
          match callf l data (log_invocation (Async p) l data st1) with
          | None => None
          | Some (c, st') => Some (store_result p i c st')
          end
      end
  end.
End Calling.

(** ** Calling a function object

    [behaviour u history data] is the body of user function [u]: what it
    does when called with [data], which may depend on what was invoked
    before (user functions have state of their own). *)

Section Emitter.
Variable behaviour : nat → list Invocation → Value → Prog.

(** [l(data)]; [None] when the fuel runs out.  A wrapper is always found
    in the table of the state it is registered in. *)
Fixpoint call (fuel : nat) (l : Fn) (data : Value) (st : State)
    : option (Completion * State) :=
  match fuel with
  | 0 => None
  | S n =>
      match l with
      | FUser u => run (call n) (behaviour u (log st) data) st
      | FOnce w =>
          match wrappers st !! w with
          | Some wr => call_wrapper (call n) wr data st
          | None => Some (Throw (VError "not a function"%string), st)
          end
      end
  end.

(** What can happen next: a script runs to completion, the next
    microtask runs, or a promise made by user code settles. *)
Inductive Action :=
| ARun (fuel : nat) (prog : Prog)
| AMicrotask (fuel : nat)
| ASettle (p : nat) (s : Settled Value).

(** A promise settles once. *)
Definition settle (p : nat) (s : Settled Value) (st : State) : State :=
  match promises st !! p with
  | Some _ => st
  | None => set_promises (insert p s) st
  end.

Definition step (a : Action) (st : State) : option State :=
  match a with
  | ARun fuel prog => snd <$> run (call fuel) prog st
  | AMicrotask fuel => run_microtask (call fuel) st
  | ASettle p s => Some (settle p s st)
  end.

Fixpoint steps (acts : list Action) (st : State) : option State :=
  match acts with
  | [] => Some st
  | a :: acts' =>
      match step a st with
      | Some st' => steps acts' st'
      | None => None
      end
  end.

(** The states of an emitter created by [new TypedEventEmitter()]. *)
Inductive reachable : State → Prop :=
| reachable_fresh : reachable fresh
| reachable_step st a st' :
    reachable st → step a st = Some st' → reachable st'.
End Emitter.

(** * Vocabulary of the properties *)

(** ** Addresses *)

(** The address of the [Set] that [on] adds to: the one stored under the
    key, or the one it is about to allocate. *)
Definition on_set (event : EventId) (st : State) : nat :=
  default (length (heap st)) (listeners st !! js_String event).

(** ** The registry invariant

    Every [Set] stored in the map is allocated and non-empty; no [Set] is
    stored under two keys; a closure returned by [on] holds an allocated
    [Set] that, if it is stored at all, is stored under the closure's own
    key; a [Set] lists no function twice. *)

Record reg_wf (st : State) : Prop := {
  reg_nonempty : ∀ k a, listeners st !! k = Some a →
    ∃ s, heap st !! a = Some s ∧ s ≠ [];
  reg_inj : ∀ k1 k2 a,
    listeners st !! k1 = Some a → listeners st !! k2 = Some a → k1 = k2;
  reg_unsubs : ∀ h u, unsubs st !! h = Some u →
    u_set u < length (heap st) ∧
    ∀ k, listeners st !! k = Some (u_set u) → k = u_key u;
  reg_NoDup : ∀ a s, heap st !! a = Some s → NoDup s
}.

(** ** The wrappers of [once]

    A wrapper is a member of no [Set] but the one captured by its own
    [unsubscribe] closure. *)

Definition once_wf (st : State) : Prop :=
  ∀ a s w, heap st !! a = Some s → FOnce w ∈ s →
    ∃ wr u, wrappers st !! w = Some wr ∧
            unsubs st !! w_unsubscribe wr = Some u ∧
            u_listener u = FOnce w ∧ u_set u = a.

(** ** What synchronous code can do to the state

    Code that runs inside one call (a listener, a script) allocates but
    never frees, appends to the microtask queue only tasks of [emitAsync]
    calls it makes itself, settles no promise, fills no slot of an
    [emitAsync] in flight, and the invocations it adds to the log belong to
    [emit] calls numbered from [m] on. *)

Record ext_from (m : nat) (st st' : State) : Prop := {
  ext_heap : length (heap st) ≤ length (heap st');
  ext_unsubs : unsubs st `prefix_of` unsubs st';
  ext_wrappers : wrappers st `prefix_of` wrappers st';
  ext_asyncs : asyncs st `prefix_of` asyncs st';
  ext_queue : ∃ new, queue st' = queue st ++ new ∧
    Forall (λ t, length (asyncs st) ≤ t.1) new;
  ext_promises : promises st' = promises st;
  ext_emissions : emissions st ≤ emissions st';
  ext_log : ∃ new, log st' = log st ++ new ∧
    Forall (λ i, ∃ n, inv_emission i = Sync n ∧ m ≤ n) new
}.

Definition ext (st st' : State) : Prop := ext_from (emissions st) st st'.

(** ** The log and queue invariant

    An invocation logged for the n-th [emit] has [n] below the number of
    [emit] calls made; one logged for an [emitAsync] names a listener and a
    payload found in a slot of that [emitAsync]; a queued microtask belongs
    to an [emitAsync] call already made. *)

Definition slot_matches (st : State) (p : nat) (l : Fn) (data : Value) : Prop :=
  ∃ slots i s, asyncs st !! p = Some slots ∧ slots !! i = Some s ∧
               slot_listener s = l ∧ slot_data s = data.

Definition log_wf (st : State) : Prop :=
  (∀ i, i ∈ log st →
     match inv_emission i with
     | Sync n => n < emissions st
     | Async p => slot_matches st p (inv_listener i) (inv_data i)
     end) ∧
  (∀ t, t ∈ queue st → t.1 < length (asyncs st)).

Definition wf (st : State) : Prop := reg_wf st ∧ once_wf st ∧ log_wf st.

(** ** Sound calls

    A way of calling functions is sound when every call that returns
    extends the state and keeps the invariants.  Whatever is built from
    sound calls is sound, and so, by induction on the fuel, is [call]. *)

Definition sound (callf : Caller) : Prop :=
  ∀ l data st c st', callf l data st = Some (c, st') →
    ext st st' ∧ (wf st → wf st').

(** ** What an emission invoked

    The invocations of one emission, in the order they happened. *)

Definition calls_of (id : Emission) (lg : list Invocation) : list (Fn * Value) :=
  map (λ i, (inv_listener i, inv_data i))
      (filter (λ i, inv_emission i = id) lg).

(** A run of listeners that all return: each is called in the state its
    predecessor left. *)
Inductive delivered (callf : Caller) (id : Emission) (data : Value)
    : list Fn → State → State → Prop :=
| delivered_nil st : delivered callf id data [] st st
| delivered_cons l ls st v st1 st2 :
    callf l data (log_invocation id l data st) = Some (Normal v, st1) →
    delivered callf id data ls st1 st2 →
    delivered callf id data (l :: ls) st st2.

(** ** An [emitAsync] in flight *)

(** The indices of the microtasks of promise [p] still queued. *)
Definition tasks_of (p : nat) (q : list (nat * nat)) : list nat :=
  (filter (λ t, t.1 = p) q).*2.

(** The [emitAsync] call that returned promise [p] took [snapshot] and
    [data]; its first [j] microtasks have run.  Then the slots still hold
    the snapshot and the payload, exactly the first [j] hold a completion,
    the remaining microtasks are queued in order, and what the emission
    invoked so far is the first [j] listeners of the snapshot. *)
Definition in_flight (p : nat) (snapshot : list Fn) (data : Value) (j : nat)
    (st : State) : Prop :=
  ∃ slots,
    asyncs st !! p = Some slots ∧
    map slot_listener slots = snapshot ∧
    Forall (λ s, slot_data s = data) slots ∧
    (∀ i s, slots !! i = Some s → is_Some (slot_result s) ↔ i < j) ∧
    tasks_of p (queue st) = seq j (length snapshot - j) ∧
    j ≤ length snapshot ∧
    calls_of (Async p) (log st) = map (λ l, (l, data)) (take j snapshot).

(** ** The promise returned by [emitAsync] *)

(** The [EmitOutcome] a slot comes to, once its promise has settled. *)
Definition outcome_of (st : State) (s : Slot) : option EmitOutcome :=
  match slot_result s with
  | None => None
  | Some (Throw e) => Some (Err e)
  | Some (Normal (VPromise q)) =>
      match promises st !! q with
      | Some (Fulfilled v) => Some (Ok v)
      | Some (Rejected e) => Some (Err e)
      | None => None
      end
  | Some (Normal v) => Some (Ok v)
  end.

(** The [EmitOutcome] that the completion of a listener's call comes to
    through [.then((v) => ({ ok: true, value: v }), (e) => ({ ok: false,
    error: e }))]: the error for what the listener threw, the value for
    what it returned, and for a returned promise its settlement. *)
Definition outcome (st : State) (c : Completion) : option EmitOutcome :=
  match c with
  | Throw e => Some (Err e)
  | Normal (VPromise q) =>
      match promises st !! q with
      | Some (Fulfilled v) => Some (Ok v)
      | Some (Rejected e) => Some (Err e)
      | None => None
      end
  | Normal v => Some (Ok v)
  end.

(** ** The call a microtask made

    In the run [acts] from [st0] there was a state in which the microtask
    of slot [i] of promise [p] was at the head of the queue, the next
    action ran it, and the call [l(data)] it made (with the task taken off
    the queue and the invocation logged) ended with [c]. *)
Definition called_by_microtask
    (behaviour : nat → list Invocation → Value → Prog)
    (acts : list Action) (st0 : State) (p i : nat) (l : Fn) (data : Value)
    (c : Completion) : Prop :=
  ∃ acts1 fuel acts2 st1 q st2,
    acts = acts1 ++ AMicrotask fuel :: acts2 ∧
    steps behaviour acts1 st0 = Some st1 ∧
    queue st1 = (p, i) :: q ∧
    call behaviour fuel l data
         (log_invocation (Async p) l data (set_queue (λ _, q) st1))
      = Some (c, st2).

(** ** Listeners and scripts of the concrete runs *)

(** Listeners that do nothing; a script that calls methods in sequence;
    the state a fresh emitter is in after some actions. *)
Definition idle : nat → list Invocation → Value → Prog :=
  λ _ _ _, Ret (Normal VUndefined).

Definition script (ops : list Op) : Prog :=
  foldr (λ op k, Do op (λ _, k)) (Ret (Normal VUndefined)) ops.

Definition after (behaviour : nat → list Invocation → Value → Prog)
    (acts : list Action) : State :=
  default fresh (steps behaviour acts fresh).

Definition c7_actions : list Action :=
  [ARun 3 (script [OOn (EStr "x") 0; OOnce (EStr "x") 1; OOn (EStr "y") 2;
                   OEmit (EStr "x") [VNum 1]; OOff (EStr "x") 0])].

(** A listener whose every run leaves a mark: called with 1 it registers
    listener 9 under 'first' and then emits 'x' with 2; called with anything
    else it registers listener 9 under 'second'. *)
Definition marking : nat → list Invocation → Value → Prog :=
  λ _ _ data,
    match data with
    | VNum 1 =>
        Do (OOn (EStr "first") 9)
           (λ _, Do (OEmit (EStr "x") [VNum 2]) (λ _, Ret (Normal VUndefined)))
    | _ => Do (OOn (EStr "second") 9) (λ _, Ret (Normal VUndefined))
    end.

(** A listener that asks, while it runs, whether 'x' has listeners, and
    registers listener 9 under 'seen' if it has. *)
Definition probe : nat → list Invocation → Value → Prog :=
  λ _ _ _,
    Do (OHasListeners (EStr "x"))
       (λ r, match r with
             | RBool true =>
                 Do (OOn (EStr "seen") 9) (λ _, Ret (Normal VUndefined))
             | _ => Ret (Normal VUndefined)
             end).

(** Listener 1 throws, every other listener returns. *)
Definition thrower : nat → list Invocation → Value → Prog :=
  λ u _ _,
    match u with
    | 1 => Ret (Throw (VError "boom"))
    | _ => Ret (Normal VUndefined)
    end.

Definition three_on_x : list Action :=
  [ARun 1 (script [OOn (EStr "x") 0; OOn (EStr "x") 1; OOn (EStr "x") 2])].

(** The first listener throws, the second returns 'ok', the third returns a
    promise. *)
Definition mixed : nat → list Invocation → Value → Prog :=
  λ u _ _,
    match u with
    | 0 => Ret (Throw (VError "boom"))
    | 1 => Ret (Normal (VStr "ok"))
    | _ => Ret (Normal (VPromise 7))
    end.

(** Listener [u] returns promise [u], left to the environment to settle. *)
Definition deferred : nat → list Invocation → Value → Prog :=
  λ u _ _, Ret (Normal (VPromise u)).

Definition two_on_z : list Action :=
  [ARun 1 (script [OOn (EStr "z") 0; OOn (EStr "z") 1])].

Definition three_on_z : list Action :=
  [ARun 1 (script [OOn (EStr "z") 0; OOn (EStr "z") 1; OOn (EStr "z") 2])].

(** ** Sequences of [on] and [off] calls, and the count the specification
    asks for *)







(** ** Properties kept by calls *)

(** Every call that returns keeps [P]. *)
Definition keeps (P : State → Prop) (callf : Caller) : Prop :=
  ∀ l data st c st', callf l data st = Some (c, st') → P st → P st'.

(** ** Wrappers that have fired *)

(** The wrapper [w] of some [once] call is a member of no [Set]. *)
Definition retired (w : nat) (st : State) : Prop :=
  w < length (wrappers st) ∧
  ∀ a s, heap st !! a = Some s → FOnce w ∉ s.

(** Every slot of an [emitAsync] whose listener is a wrapper of [once] and
    whose call returned holds [undefined]. *)
Definition wrapper_slots_undefined (st : State) : Prop :=
  ∀ p slots i s w v,
    asyncs st !! p = Some slots → slots !! i = Some s →
    slot_listener s = FOnce w → slot_result s = Some (Normal v) →
    v = VUndefined.

(** * Properties *)

(** ** Sets *)

Module JSSetFacts.
Import JSSet.

Lemma elem_of_add x y s : x ∈ add y s ↔ x = y ∨ x ∈ s.
Proof.
  unfold add. case_decide.
  - split; [auto | intros [->|?]; done].
  - rewrite elem_of_app, list_elem_of_singleton. tauto.
Qed.

Lemma add_nonempty x s : add x s ≠ [].
Proof.
  unfold add. case_decide as Hin.
  - intros ->. by apply not_elem_of_nil in Hin.
  - by destruct s.
Qed.

Lemma add_NoDup x s : NoDup s → NoDup (add x s).
Proof.
  unfold add. intros Hnd. case_decide; [done|].
  apply NoDup_app. split_and!; [done| |apply NoDup_singleton].
  intros y Hy ->%list_elem_of_singleton. done.
Qed.

Lemma add_present x s : x ∈ s → add x s = s.
Proof. unfold add. intros. by rewrite decide_True. Qed.

Lemma elem_of_delete x y s : x ∈ delete y s ↔ x ≠ y ∧ x ∈ s.
Proof. unfold delete. by rewrite list_elem_of_filter. Qed.

Lemma delete_NoDup x s : NoDup s → NoDup (delete x s).
Proof. apply NoDup_filter. Qed.

Lemma delete_absent x s : x ∉ s → delete x s = s.
Proof.
  unfold delete. induction s as [|y s IH]; [done|].
  rewrite not_elem_of_cons. intros [Hne Hs].
  rewrite filter_cons, decide_True by done. by rewrite IH.
Qed.

Lemma delete_length x s : NoDup s → x ∈ s → S (size (delete x s)) = size s.
Proof.
  unfold delete, size. induction 1 as [|y s Hy Hnd IH]; [by intros ?%not_elem_of_nil|].
  rewrite elem_of_cons. intros [->|Hin].
  - rewrite filter_cons, decide_False by (intros H; by apply H).
    simpl. f_equal. fold (delete y s). by rewrite delete_absent.
  - rewrite filter_cons, decide_True by (intros ->; done).
    simpl. by rewrite IH.
Qed.
End JSSetFacts.

(** ** The registry methods, field by field *)

Ltac unfold_setters :=
  unfold set_heap, set_listeners, set_unsubs, set_wrappers, set_asyncs,
    set_queue, set_promises, set_emissions, set_log, log_invocation in *;
  simpl in *.

Lemma on_unfold event l st :
  on event l st =
  (length (unsubs st),
   mkState
     (match listeners st !! js_String event with
      | Some a => alter (JSSet.add l) a (heap st)
      | None => heap st ++ [[l]]
      end)
     (match listeners st !! js_String event with
      | Some a => listeners st
      | None => <[js_String event := length (heap st)]> (listeners st)
      end)
     (unsubs st ++ [mkUnsub (js_String event) (on_set event st) l])
     (wrappers st) (asyncs st) (queue st) (promises st)
     (emissions st) (log st)).
Proof.
  unfold on, on_set.
  destruct (listeners st !! js_String event) as [a|] eqn:E; simpl.
  - by rewrite E.
  - rewrite lookup_insert_eq. unfold_setters.
    rewrite alter_app_r_alt, Nat.sub_diag by done. done.
Qed.

Lemma once_unfold event l st :
  once event l st =
  (length (unsubs st),
   set_wrappers (λ ws, ws ++ [mkWrapper l (length (unsubs st))])
     (on event (FOnce (length (wrappers st))) st).2).
Proof. unfold once. by rewrite on_unfold. Qed.

Lemma delete_from_unfold key a l st :
  delete_from key a l st =
  mkState
    (alter (JSSet.delete l) a (heap st))
    (if decide (JSSet.size (default [] (alter (JSSet.delete l) a (heap st) !! a)) = 0)
     then delete key (listeners st) else listeners st)
    (unsubs st) (wrappers st) (asyncs st) (queue st) (promises st)
    (emissions st) (log st).
Proof. unfold delete_from, set_at. simpl. by case_decide. Qed.

(** [emitAsync] in one piece: without a [Set] under the key the snapshot
    is empty. *)
Lemma emitAsync_unfold event payload st :
  emitAsync event payload st =
  (length (asyncs st),
   mkState (heap st) (listeners st) (unsubs st) (wrappers st)
     (asyncs st ++
        [map (λ l, mkSlot l (first_arg payload) None)
             (listeners_of st (js_String event))])
     (queue st ++
        map (λ i, (length (asyncs st), i))
            (seq 0 (length (listeners_of st (js_String event)))))
     (promises st) (emissions st) (log st)).
Proof.
  unfold emitAsync, listeners_of.
  destruct (listeners st !! js_String event); [done|].
  unfold_setters. by rewrite app_nil_r.
Qed.

(** ** The registry invariant *)

Lemma fresh_reg_wf : reg_wf fresh.
Proof. split; simpl; intros *; by rewrite ?lookup_empty, ?lookup_nil. Qed.

Lemma reg_lookup_lt st k a :
  reg_wf st → listeners st !! k = Some a → a < length (heap st).
Proof.
  intros Hwf Hk. destruct (reg_nonempty _ Hwf _ _ Hk) as (s & Hs & _).
  by eapply lookup_lt_Some.
Qed.

Lemma delete_from_reg_wf key a l st :
  reg_wf st →
  (∀ k, listeners st !! k = Some a → k = key) →
  reg_wf (delete_from key a l st).
Proof.
  intros Hwf Hown. rewrite delete_from_unfold. split; simpl.
  - intros k a' Hk.
    assert (listeners st !! k = Some a' ∧
            (a' = a → JSSet.size (default [] (alter (JSSet.delete l) a (heap st) !! a)) ≠ 0))
      as [Hk' Hne].
    { case_decide as Hsz.
      - apply lookup_delete_Some in Hk as [Hkey Hk]. split; [done|].
        intros ->. by destruct Hkey; symmetry; apply Hown.
      - done. }
    destruct (reg_nonempty _ Hwf _ _ Hk') as (s & Hs & Hs').
    destruct (decide (a' = a)) as [->|Hneq].
    + specialize (Hne eq_refl). rewrite list_lookup_alter_eq, Hs in *. simpl in *.
      eexists; split; [done|]. intros E. by rewrite E in Hne.
    + rewrite list_lookup_alter_ne by done. eauto.
  - intros k1 k2 a' H1 H2. eapply (reg_inj _ Hwf k1 k2 a').
    + case_decide; [by apply lookup_delete_Some in H1 as [_ ?]|done].
    + case_decide; [by apply lookup_delete_Some in H2 as [_ ?]|done].
  - intros h u Hu. rewrite length_alter.
    destruct (reg_unsubs _ Hwf _ _ Hu) as [Hlt Hk]. split; [done|].
    intros k Hk'. apply Hk.
    case_decide; [by apply lookup_delete_Some in Hk' as [_ ?]|done].
  - intros a' s Hs. destruct (decide (a' = a)) as [->|Hneq].
    + rewrite list_lookup_alter_eq in Hs.
      destruct (heap st !! a) as [s0|] eqn:E; simplify_eq/=.
      apply JSSetFacts.delete_NoDup. by eapply reg_NoDup.
    + rewrite list_lookup_alter_ne in Hs by done. by eapply reg_NoDup.
Qed.

Lemma off_reg_wf event l st : reg_wf st → reg_wf (off event l st).2.
Proof.
  intros Hwf. unfold off.
  destruct (listeners st !! js_String event) as [a|] eqn:E; [|done].
  simpl. apply delete_from_reg_wf; [done|].
  intros k Hk. by eapply reg_inj.
Qed.

Lemma unsubscribe_reg_wf h st : reg_wf st → reg_wf (unsubscribe h st).
Proof.
  intros Hwf. unfold unsubscribe.
  destruct (unsubs st !! h) as [u|] eqn:E; [|done].
  apply delete_from_reg_wf; [done|].
  by destruct (reg_unsubs _ Hwf _ _ E).
Qed.

Lemma clear_reg_wf event st : reg_wf st → reg_wf (clear event st).
Proof.
  intros Hwf. destruct event as [e|]; split; simpl.
  - intros k a [_ Hk]%lookup_delete_Some. by eapply reg_nonempty.
  - intros k1 k2 a [_ H1]%lookup_delete_Some [_ H2]%lookup_delete_Some.
    by eapply reg_inj.
  - intros h u Hu. destruct (reg_unsubs _ Hwf _ _ Hu) as [Hlt Hk].
    split; [done|]. intros k [_ Hk']%lookup_delete_Some. by apply Hk.
  - apply Hwf.
  - intros k a. by rewrite lookup_empty.
  - intros k1 k2 a. by rewrite lookup_empty.
  - intros h u Hu. destruct (reg_unsubs _ Hwf _ _ Hu) as [Hlt Hk].
    split; [done|]. intros k. by rewrite lookup_empty.
  - apply Hwf.
Qed.

Lemma on_reg_wf event l st : reg_wf st → reg_wf (on event l st).2.
Proof.
  intros Hwf. rewrite on_unfold. unfold on_set.
  destruct (listeners st !! js_String event) as [a|] eqn:E; split; simpl.
  - intros k a' Hk. destruct (reg_nonempty _ Hwf _ _ Hk) as (s & Hs & Hs').
    destruct (decide (a = a')) as [->|Hneq].
    + rewrite list_lookup_alter_eq, Hs. simpl.
      eexists; split; [done|]. apply JSSetFacts.add_nonempty.
    + rewrite list_lookup_alter_ne by done. eauto.
  - apply Hwf.
  - intros h u. rewrite length_alter, lookup_snoc_Some.
    intros [[_ Hu]|[_ <-]]; simpl.
    + by apply (reg_unsubs _ Hwf h).
    + split; [by eapply reg_lookup_lt|].
      intros k Hk. by eapply reg_inj.
  - intros a' s. destruct (decide (a = a')) as [->|Hneq].
    + rewrite list_lookup_alter_eq.
      destruct (heap st !! a') as [s0|] eqn:E'; intros; simplify_eq/=.
      apply JSSetFacts.add_NoDup. by eapply reg_NoDup.
    + rewrite list_lookup_alter_ne by done. by apply reg_NoDup.
  - intros k a. rewrite lookup_insert_Some.
    intros [[<- <-]|[Hne Hk]].
    + rewrite list_lookup_middle by done. by eexists.
    + destruct (reg_nonempty _ Hwf _ _ Hk) as (s & Hs & Hs').
      rewrite lookup_app_l by (by eapply lookup_lt_Some). eauto.
  - intros k1 k2 a. rewrite !lookup_insert_Some.
    intros [[<- <-]|[Hne1 H1]] [[<- Ha]|[Hne2 H2]]; try done.
    + pose proof (reg_lookup_lt _ _ _ Hwf H2). lia.
    + pose proof (reg_lookup_lt _ _ _ Hwf H1). lia.
    + by eapply reg_inj.
  - intros h u. rewrite length_app, lookup_snoc_Some. simpl.
    intros [[_ Hu]|[_ <-]]; simpl.
    + destruct (reg_unsubs _ Hwf _ _ Hu) as [Hlt Hk]. split; [lia|].
      intros k. rewrite lookup_insert_Some. intros [[<- Ha]|[Hne Hk']]; [lia|].
      by apply Hk.
    + split; [lia|]. intros k. rewrite lookup_insert_Some.
      intros [[<- _]|[Hne Hk]]; [done|].
      pose proof (reg_lookup_lt _ _ _ Hwf Hk). lia.
  - intros a s. rewrite lookup_snoc_Some.
    intros [[_ Hs]|[_ <-]]; [by eapply reg_NoDup|apply NoDup_singleton].
Qed.

(** Where a function can be found after [on]: in the [Set] that [on]
    added to when it is the new listener, where it was otherwise. *)
Lemma on_elem_of event l st a s x :
  heap (on event l st).2 !! a = Some s → x ∈ s →
  (x = l ∧ a = on_set event st) ∨ (∃ s0, heap st !! a = Some s0 ∧ x ∈ s0).
Proof.
  rewrite on_unfold. unfold on_set. simpl.
  destruct (listeners st !! js_String event) as [a0|] eqn:E; simpl.
  - destruct (decide (a0 = a)) as [->|Hneq].
    + rewrite list_lookup_alter_eq.
      destruct (heap st !! a) as [s0|] eqn:E'; simpl; intros [= <-] Hx.
      apply JSSetFacts.elem_of_add in Hx as [->|Hx]; eauto.
    + rewrite list_lookup_alter_ne by done. eauto.
  - rewrite lookup_snoc_Some. intros [[_ Hs]|[<- <-]] Hx; [eauto|].
    apply list_elem_of_singleton in Hx. auto.
Qed.

(** ** The wrappers of [once] *)

Lemma fresh_once_wf : once_wf fresh.
Proof. intros a s w. simpl. by rewrite lookup_nil. Qed.

Lemma on_user_once_wf event u st :
  once_wf st → once_wf (on event (FUser u) st).2.
Proof.
  intros Hwf a s w Hs Hw.
  destruct (on_elem_of _ _ _ _ _ _ Hs Hw) as [[? _]|(s0 & Hs0 & Hw0)]; [done|].
  destruct (Hwf _ _ _ Hs0 Hw0) as (wr & un & Hwr & Hun & ? & ?).
  exists wr, un. rewrite on_unfold. simpl.
  split_and!; try done. rewrite lookup_app_l; [done|by eapply lookup_lt_Some].
Qed.

Lemma once_once_wf event l st : once_wf st → once_wf (once event l st).2.
Proof.
  intros Hwf a s w. rewrite once_unfold. simpl. intros Hs Hw.
  destruct (on_elem_of _ _ _ _ _ _ Hs Hw) as [[Heq ->]|(s0 & Hs0 & Hw0)].
  - injection Heq as ->.
    exists (mkWrapper l (length (unsubs st))),
           (mkUnsub (js_String event) (on_set event st)
                    (FOnce (length (wrappers st)))).
    rewrite on_unfold. simpl. by rewrite !list_lookup_middle.
  - destruct (Hwf _ _ _ Hs0 Hw0) as (wr & un & Hwr & Hun & ? & ?).
    exists wr, un. rewrite on_unfold. simpl.
    split_and!; try done; rewrite lookup_app_l; try done;
      by eapply lookup_lt_Some.
Qed.

Lemma delete_from_once_wf key a l st :
  once_wf st → once_wf (delete_from key a l st).
Proof.
  intros Hwf a' s w. rewrite delete_from_unfold. simpl.
  destruct (decide (a = a')) as [->|Hneq].
  - rewrite list_lookup_alter_eq.
    destruct (heap st !! a') as [s0|] eqn:E; intros; simplify_eq/=.
    eapply Hwf; [done|]. by eapply JSSetFacts.elem_of_delete.
  - rewrite list_lookup_alter_ne by done. apply Hwf.
Qed.

Lemma off_once_wf event l st : once_wf st → once_wf (off event l st).2.
Proof.
  intros Hwf. unfold off. destruct (listeners st !! _); [|done].
  by apply delete_from_once_wf.
Qed.

Lemma unsubscribe_once_wf h st : once_wf st → once_wf (unsubscribe h st).
Proof.
  intros Hwf. unfold unsubscribe. destruct (unsubs st !! _); [|done].
  by apply delete_from_once_wf.
Qed.

Lemma clear_once_wf event st : once_wf st → once_wf (clear event st).
Proof. intros Hwf. by destruct event. Qed.

(** ** What synchronous code can do to the state *)

Lemma ext_from_refl m st : ext_from m st st.
Proof. split; try done; exists []; by rewrite app_nil_r. Qed.

Lemma ext_from_trans m st1 st2 st3 :
  ext_from m st1 st2 → ext_from m st2 st3 → ext_from m st1 st3.
Proof.
  intros [] []. split; try (etrans; done).
  - destruct ext_queue0 as (n1 & E1 & F1), ext_queue1 as (n2 & E2 & F2).
    exists (n1 ++ n2). rewrite E2, E1, app_assoc. split; [done|].
    apply Forall_app. split; [done|].
    eapply Forall_impl; [done|]. intros t Ht. simpl in Ht.
    apply prefix_length in ext_asyncs0. lia.
  - destruct ext_log0 as (n1 & E1 & F1), ext_log1 as (n2 & E2 & F2).
    exists (n1 ++ n2). rewrite E2, E1, app_assoc. split; [done|].
    by apply Forall_app.
Qed.

Lemma ext_from_mono m m' st st' : m ≤ m' → ext_from m' st st' → ext_from m st st'.
Proof.
  intros Hm []. split; try done.
  destruct ext_log0 as (new & E & F). exists new. split; [done|].
  eapply Forall_impl; [done|]. intros i (n & ? & ?). exists n. split; [done|lia].
Qed.

Global Instance ext_preorder : PreOrder ext.
Proof.
  split.
  - intros st. apply ext_from_refl.
  - intros st1 st2 st3 H1 H2. unfold ext in *.
    eapply ext_from_trans; [done|].
    eapply ext_from_mono; [|done]. apply H1.
Qed.

(** A change that appends to the allocation tables and leaves the log and
    the asynchronous side alone. *)
Lemma ext_alloc st st' :
  length (heap st) ≤ length (heap st') →
  unsubs st `prefix_of` unsubs st' →
  wrappers st `prefix_of` wrappers st' →
  asyncs st' = asyncs st →
  queue st' = queue st →
  promises st' = promises st →
  emissions st' = emissions st →
  log st' = log st →
  ext st st'.
Proof.
  intros ??? Ha Hq ? He Hl. split; try done.
  - by rewrite Ha.
  - exists []. by rewrite Hq, app_nil_r.
  - lia.
  - exists []. by rewrite Hl, app_nil_r.
Qed.

Lemma on_ext event l st : ext st (on event l st).2.
Proof.
  rewrite on_unfold. apply ext_alloc; simpl; try done.
  - destruct (listeners st !! _); [by rewrite length_alter|].
    rewrite length_app. lia.
  - by apply prefix_app_r.
Qed.

Lemma once_ext event l st : ext st (once event l st).2.
Proof.
  rewrite once_unfold. etrans; [apply (on_ext event (FOnce (length (wrappers st))))|].
  apply ext_alloc; simpl; try done. by apply prefix_app_r.
Qed.

Lemma delete_from_ext key a l st : ext st (delete_from key a l st).
Proof.
  rewrite delete_from_unfold. apply ext_alloc; simpl; try done.
  by rewrite length_alter.
Qed.

Lemma off_ext event l st : ext st (off event l st).2.
Proof.
  unfold off. destruct (listeners st !! _); [|done].
  apply delete_from_ext.
Qed.

Lemma unsubscribe_ext h st : ext st (unsubscribe h st).
Proof.
  unfold unsubscribe. destruct (unsubs st !! _); [|done].
  apply delete_from_ext.
Qed.

Lemma clear_ext event st : ext st (clear event st).
Proof. destruct event; by apply ext_alloc. Qed.

Lemma emitAsync_ext event payload st : ext st (emitAsync event payload st).2.
Proof.
  rewrite emitAsync_unfold. split; simpl; try done;
    try (by apply prefix_app_r); try (exists []; by rewrite app_nil_r).
  eexists. split; [done|]. apply Forall_map, Forall_true. done.
Qed.

(** ** The log and queue invariant *)

Lemma fresh_wf : wf fresh.
Proof.
  split_and!; [apply fresh_reg_wf|apply fresh_once_wf|].
  split; intros i; simpl; by intros ?%not_elem_of_nil.
Qed.

Lemma reg_wf_eq st st' :
  heap st' = heap st → listeners st' = listeners st → unsubs st' = unsubs st →
  reg_wf st → reg_wf st'.
Proof. intros Hh Hl Hu []. split; rewrite ?Hh, ?Hl, ?Hu; done. Qed.

Lemma once_wf_eq st st' :
  heap st' = heap st → unsubs st' = unsubs st → wrappers st' = wrappers st →
  once_wf st → once_wf st'.
Proof. intros Hh Hu Hw H. unfold once_wf. by rewrite Hh, Hu, Hw. Qed.

Lemma slot_matches_prefix st st' p l data :
  asyncs st `prefix_of` asyncs st' →
  slot_matches st p l data → slot_matches st' p l data.
Proof.
  intros Hpre (slots & i & s & Hp & ?). exists slots, i, s.
  split; [|done]. by eapply prefix_lookup_Some.
Qed.

Lemma log_wf_eq st st' :
  log st' = log st → emissions st ≤ emissions st' →
  asyncs st `prefix_of` asyncs st' → queue st' = queue st →
  log_wf st → log_wf st'.
Proof.
  intros Hl He Ha Hq [H Hqueue]. split.
  - intros i. rewrite Hl. intros Hi. specialize (H i Hi).
    destruct (inv_emission i); [lia|]. by eapply slot_matches_prefix.
  - intros t. rewrite Hq. intros Ht%Hqueue. apply prefix_length in Ha. lia.
Qed.

(** The registry methods touch neither the log nor the asynchronous side,
    and [emitAsync] does not touch the registry. *)
Lemma on_user_wf event u st : wf st → wf (on event (FUser u) st).2.
Proof.
  intros (? & ? & ?). split_and!.
  - by apply on_reg_wf.
  - by apply on_user_once_wf.
  - eapply log_wf_eq; [..|done]; by rewrite on_unfold.
Qed.

Lemma once_wf_wf event l st : wf st → wf (once event l st).2.
Proof.
  intros (? & ? & ?). split_and!.
  - rewrite once_unfold. eapply reg_wf_eq; [..|by apply on_reg_wf]; done.
  - by apply once_once_wf.
  - eapply log_wf_eq; [..|done]; by rewrite once_unfold, on_unfold.
Qed.

Lemma off_wf event l st : wf st → wf (off event l st).2.
Proof.
  intros (? & ? & ?). split_and!.
  - by apply off_reg_wf.
  - by apply off_once_wf.
  - unfold off. destruct (listeners st !! _); [|done].
    by eapply log_wf_eq; [..|done]; rewrite delete_from_unfold.
Qed.

Lemma unsubscribe_wf h st : wf st → wf (unsubscribe h st).
Proof.
  intros (? & ? & ?). split_and!.
  - by apply unsubscribe_reg_wf.
  - by apply unsubscribe_once_wf.
  - unfold unsubscribe. destruct (unsubs st !! _); [|done].
    by eapply log_wf_eq; [..|done]; rewrite delete_from_unfold.
Qed.

Lemma clear_wf event st : wf st → wf (clear event st).
Proof.
  intros (? & ? & ?). split_and!.
  - by apply clear_reg_wf.
  - by apply clear_once_wf.
  - by destruct event.
Qed.

Lemma emitAsync_wf event payload st : wf st → wf (emitAsync event payload st).2.
Proof.
  intros (? & ? & Hlog & Hqueue). rewrite emitAsync_unfold. split_and!.
  - by eapply reg_wf_eq; [..|done].
  - by eapply once_wf_eq; [..|done].
  - split; simpl.
    + intros i Hi. specialize (Hlog i Hi). destruct (inv_emission i); [done|].
      eapply slot_matches_prefix; [|done]. by apply prefix_app_r.
    + intros t. rewrite length_app, elem_of_app, list_elem_of_fmap. simpl.
      intros [Ht%Hqueue|(i & -> & _)]; simpl; lia.
Qed.

Lemma set_emissions_wf st : wf st → wf (set_emissions S st).
Proof.
  intros (? & ? & ?). split_and!.
  - by eapply reg_wf_eq; [..|done].
  - by eapply once_wf_eq; [..|done].
  - eapply log_wf_eq; [..|done]; simpl; [done|lia|done|done].
Qed.

Lemma log_invocation_wf id l data st :
  match id with
  | Sync n => n < emissions st
  | Async p => slot_matches st p l data
  end →
  wf st → wf (log_invocation id l data st).
Proof.
  intros Hid (? & ? & Hlog & Hqueue). split_and!.
  - by eapply reg_wf_eq; [..|done].
  - by eapply once_wf_eq; [..|done].
  - split; [|done]. intros i. unfold log_invocation. simpl.
    rewrite elem_of_app, list_elem_of_singleton.
    intros [Hi| ->]; [by apply Hlog|done].
Qed.

(** ** Calls preserve the invariants *)

Section Sound.
Variable callf : Caller.
Hypothesis callf_sound : sound callf.

Lemma log_invocation_ext_from n l data st :
  ext_from n st (log_invocation (Sync n) l data st).
Proof.
  split; simpl; try done; [exists []; by rewrite app_nil_r|].
  eexists. split; [done|]. constructor; [|done]. by exists n.
Qed.

Lemma forEach_sound n data ls st c st' :
  forEach callf (Sync n) data ls st = Some (c, st') →
  n < emissions st →
  ext_from n st st' ∧ (wf st → wf st').
Proof.
  revert st. induction ls as [|l ls IH]; intros st; simpl.
  { intros [= <- <-] _. split; [apply ext_from_refl|done]. }
  destruct (callf l data (log_invocation (Sync n) l data st))
    as [[c1 st1]|] eqn:E; [|done].
  apply callf_sound in E as [Hext Hwf]. intros Hf Hn.
  assert (ext_from n st st1) as Hst1.
  { eapply ext_from_trans; [apply log_invocation_ext_from|].
    eapply ext_from_mono; [|exact Hext]. simpl. lia. }
  assert (wf st → wf st1) as Hwf1.
  { intros. by apply Hwf, log_invocation_wf. }
  destruct c1.
  - apply IH in Hf as [? ?].
    + split; [by eapply ext_from_trans|auto].
    + pose proof (ext_emissions _ _ _ Hst1). lia.
  - by injection Hf as <- <-.
Qed.

Lemma emit_sound event payload st c st' :
  emit callf event payload st = Some (c, st') →
  ext st st' ∧ (wf st → wf st').
Proof.
  unfold emit. destruct (listeners st !! _) as [a|]; [|by intros [= <- <-]].
  intros [Hext Hwf]%forEach_sound; [|simpl; lia]. split.
  - unfold ext. eapply ext_from_trans; [|exact Hext].
    split; simpl; try done; [|lia|]; exists []; by rewrite app_nil_r.
  - intros. by apply Hwf, set_emissions_wf.
Qed.

Lemma exec_sound op st r st' :
  exec callf op st = Some (r, st') → ext st st' ∧ (wf st → wf st').
Proof.
  destruct op; simpl.
  - destruct (on event (FUser u) st) as [h st1] eqn:E. intros [= <- <-].
    replace st1 with (on event (FUser u) st).2 by by rewrite E.
    split; [apply on_ext|apply on_user_wf].
  - destruct (once event (FUser u) st) as [h st1] eqn:E. intros [= <- <-].
    replace st1 with (once event (FUser u) st).2 by by rewrite E.
    split; [apply once_ext|apply once_wf_wf].
  - destruct (off event (FUser u) st) as [h st1] eqn:E. intros [= <- <-].
    replace st1 with (off event (FUser u) st).2 by by rewrite E.
    split; [apply off_ext|apply off_wf].
  - intros [= <- <-]. split; [apply clear_ext|apply clear_wf].
  - by intros [= <- <-].
  - by intros [= <- <-].
  - destruct (emit callf event payload st) as [[[] st1]|] eqn:E; [..|done];
      intros [= <- <-]; by eapply emit_sound.
  - destruct (emitAsync event payload st) as [h st1] eqn:E. intros [= <- <-].
    replace st1 with (emitAsync event payload st).2 by by rewrite E.
    split; [apply emitAsync_ext|apply emitAsync_wf].
  - intros [= <- <-]. split; [apply unsubscribe_ext|apply unsubscribe_wf].
Qed.

Lemma run_sound prog st c st' :
  run callf prog st = Some (c, st') → ext st st' ∧ (wf st → wf st').
Proof.
  revert st. induction prog as [c0|op k IH]; intros st; simpl.
  { by intros [= <- <-]. }
  destruct (exec callf op st) as [[r st1]|] eqn:E; [|done].
  apply exec_sound in E as [Hext Hwf].
  intros [? ?]%IH. split; [by etrans|auto].
Qed.

Lemma call_wrapper_sound wr data st c st' :
  call_wrapper callf wr data st = Some (c, st') →
  ext st st' ∧ (wf st → wf st').
Proof.
  unfold call_wrapper.
  destruct (callf (w_listener wr) data st) as [[c1 st1]|] eqn:E; [|done].
  apply callf_sound in E as [Hext Hwf].
  intros Hc.
  assert (st' = unsubscribe (w_unsubscribe wr) st1) as ->
    by (by destruct c1; injection Hc as <- <-).
  split; [etrans; [done|apply unsubscribe_ext]|].
  intros. by apply unsubscribe_wf, Hwf.
Qed.
End Sound.

Lemma call_sound behaviour fuel : sound (call behaviour fuel).
Proof.
  induction fuel as [|n IH]; intros l data st c st'; simpl; [done|].
  destruct l as [u|w].
  - by apply run_sound.
  - destruct (wrappers st !! w) as [wr|]; [by apply call_wrapper_sound|].
    by intros [= <- <-].
Qed.

(** ** Microtasks, actions, reachable states *)

Lemma store_result_slot_matches p i c st p' l data :
  slot_matches st p' l data → slot_matches (store_result p i c st) p' l data.
Proof.
  intros (slots & i' & s & Hp & Hi & Hl & Hd). unfold slot_matches. simpl.
  rewrite list_lookup_alter. case_decide as Hpp; subst.
  - rewrite Hp. simpl. destruct (decide (i = i')) as [->|].
    + eexists _, i', _. split; [reflexivity|].
      rewrite list_lookup_alter_eq, Hi. simpl. eauto.
    + eexists _, i', s. split; [reflexivity|].
      by rewrite list_lookup_alter_ne.
  - eauto 10.
Qed.

Lemma store_result_wf p i c st : wf st → wf (store_result p i c st).
Proof.
  intros (? & ? & Hlog & Hqueue). split_and!.
  - by eapply reg_wf_eq; [..|done].
  - by eapply once_wf_eq; [..|done].
  - split.
    + intros iv Hiv. specialize (Hlog iv Hiv). simpl.
      destruct (inv_emission iv); [done|]. by apply store_result_slot_matches.
    + intros t Ht%Hqueue. simpl. by rewrite length_alter.
Qed.

Lemma set_queue_wf q st : q ⊆ queue st → wf st → wf (set_queue (λ _, q) st).
Proof.
  intros Hq (? & ? & Hlog & Hqueue). split_and!.
  - by eapply reg_wf_eq; [..|done].
  - by eapply once_wf_eq; [..|done].
  - split; [done|]. intros t Ht. simpl in *. by apply Hqueue, Hq.
Qed.

Lemma settle_wf p s st : wf st → wf (settle p s st).
Proof.
  intros Hwf. unfold settle. destruct (promises st !! p); [done|].
  destruct Hwf as (? & ? & ?). split_and!.
  - by eapply reg_wf_eq; [..|done].
  - by eapply once_wf_eq; [..|done].
  - done.
Qed.

Lemma run_microtask_wf callf st st' :
  sound callf → run_microtask callf st = Some st' → wf st → wf st'.
Proof.
  intros Hsound. unfold run_microtask.
  destruct (queue st) as [|[p i] q] eqn:Hq; [by intros [= <-]|].
  destruct (asyncs st !! p ≫= _) as [s|] eqn:Hs.
  - destruct (callf _ _ _) as [[c st1]|] eqn:E; [|done].
    intros [= <-] Hwf. apply store_result_wf.
    apply Hsound in E as [_ Hwf1]. apply Hwf1.
    apply log_invocation_wf;
      [|apply set_queue_wf; [rewrite Hq; set_solver|done]].
    apply bind_Some in Hs as (slots & Hp & Hi). by exists slots, i, s.
  - intros [= <-] Hwf. apply set_queue_wf; [rewrite Hq; set_solver|done].
Qed.

Lemma step_wf behaviour a st st' :
  step behaviour a st = Some st' → wf st → wf st'.
Proof.
  destruct a as [fuel prog|fuel|p s]; simpl.
  - destruct (run _ prog st) as [[c st1]|] eqn:E; [|done].
    intros [= <-]. eapply run_sound; [|done]. apply call_sound.
  - apply run_microtask_wf, call_sound.
  - intros [= <-]. apply settle_wf.
Qed.

Lemma steps_wf behaviour acts st st' :
  steps behaviour acts st = Some st' → wf st → wf st'.
Proof.
  revert st. induction acts as [|a acts IH]; intros st; simpl.
  { by intros [= <-]. }
  destruct (step behaviour a st) as [st1|] eqn:E; [|done].
  intros ? ?. eapply IH; [done|]. by eapply step_wf.
Qed.

Lemma reachable_wf behaviour st : reachable behaviour st → wf st.
Proof.
  induction 1 as [|st a st' _ IH Hstep]; [apply fresh_wf|].
  by eapply step_wf.
Qed.

Lemma reachable_steps behaviour acts st st' :
  reachable behaviour st → steps behaviour acts st = Some st' →
  reachable behaviour st'.
Proof.
  revert st. induction acts as [|a acts IH]; intros st Hr; simpl.
  { by intros [= <-]. }
  destruct (step behaviour a st) as [st1|] eqn:E; [|done].
  apply IH. by eapply reachable_step.
Qed.

(** ** What an emission invoked *)

Lemma calls_of_app id l1 l2 :
  calls_of id (l1 ++ l2) = calls_of id l1 ++ calls_of id l2.
Proof. unfold calls_of. by rewrite filter_app, map_app. Qed.

Lemma calls_of_none id lg :
  Forall (λ i, inv_emission i ≠ id) lg → calls_of id lg = [].
Proof.
  unfold calls_of. induction 1 as [|i lg Hi _ IH]; [done|].
  by rewrite filter_cons, decide_False.
Qed.

Lemma calls_of_log_invocation id id' l data st :
  calls_of id (log (log_invocation id' l data st)) =
  calls_of id (log st) ++ (if decide (id' = id) then [(l, data)] else []).
Proof.
  unfold log_invocation. simpl. rewrite calls_of_app. f_equal.
  unfold calls_of. rewrite filter_cons. simpl. by case_decide.
Qed.

(** Synchronous code adds nothing to an emission already numbered. *)
Lemma calls_of_sync_ext m n st st' :
  ext_from m st st' → n < m →
  calls_of (Sync n) (log st') = calls_of (Sync n) (log st).
Proof.
  intros [_ _ _ _ _ _ _ (new & -> & Hnew)] Hn.
  rewrite calls_of_app, (calls_of_none _ new), app_nil_r; [done|].
  eapply Forall_impl; [done|]. intros i (k & -> & ?) [= ->]. lia.
Qed.

Lemma calls_of_async_ext m p st st' :
  ext_from m st st' →
  calls_of (Async p) (log st') = calls_of (Async p) (log st).
Proof.
  intros [_ _ _ _ _ _ _ (new & -> & Hnew)].
  rewrite calls_of_app, (calls_of_none _ new), app_nil_r; [done|].
  eapply Forall_impl; [done|]. by intros i (k & -> & ?).
Qed.

Lemma calls_of_fresh_sync st :
  log_wf st → calls_of (Sync (emissions st)) (log st) = [].
Proof.
  intros [Hlog _]. apply calls_of_none, Forall_forall. intros i Hi E.
  specialize (Hlog i Hi). rewrite E in Hlog. lia.
Qed.

Lemma calls_of_fresh_async st :
  log_wf st → calls_of (Async (length (asyncs st))) (log st) = [].
Proof.
  intros [Hlog _]. apply calls_of_none, Forall_forall. intros i Hi E.
  specialize (Hlog i Hi). rewrite E in Hlog.
  destruct Hlog as (slots & _ & _ & Hp%lookup_lt_Some & _). lia.
Qed.

Section Delivery.
Variable callf : Caller.
Hypothesis callf_sound : sound callf.

Lemma forEach_delivered id data pre rest st st1 :
  delivered callf id data pre st st1 →
  forEach callf id data (pre ++ rest) st = forEach callf id data rest st1.
Proof.
  induction 1 as [|l ls st v st1 st2 Hcall _ IH]; [done|].
  simpl. by rewrite Hcall.
Qed.

(** [forEach] either delivers to every listener, or delivers to those
    before the first one that throws and stops there. *)
Lemma forEach_inv id data ls st c st' :
  forEach callf id data ls st = Some (c, st') →
  (c = Normal VUndefined ∧ delivered callf id data ls st st') ∨
  (∃ pre l post e st1,
     ls = pre ++ l :: post ∧ c = Throw e ∧
     delivered callf id data pre st st1 ∧
     callf l data (log_invocation id l data st1) = Some (Throw e, st')).
Proof.
  revert st. induction ls as [|l ls IH]; intros st; simpl.
  { intros [= <- <-]. left. split; [done|constructor]. }
  destruct (callf l data _) as [[[v|e] st1]|] eqn:E; [..|done].
  - intros [[-> Hd]|(pre & l' & post & e & st2 & -> & -> & Hd & Hl)]%IH.
    + left. split; [done|]. by econstructor.
    + right. exists (l :: pre), l', post, e, st2.
      split_and!; try done. by econstructor.
  - intros [= <- <-]. right. exists [], l, ls, e, st.
    split_and!; try done. constructor.
Qed.

Lemma delivered_calls n data ls st st' :
  delivered callf (Sync n) data ls st st' → n < emissions st →
  calls_of (Sync n) (log st') =
    calls_of (Sync n) (log st) ++ map (λ l, (l, data)) ls ∧
  n < emissions st'.
Proof.
  induction 1 as [|l ls st v st1 st2 Hcall _ IH]; intros Hn.
  { by rewrite app_nil_r. }
  apply callf_sound in Hcall as [Hext _].
  pose proof (ext_emissions _ _ _ Hext) as He. simpl in He.
  destruct IH as [-> ?]; [lia|]. split; [|done].
  rewrite (calls_of_sync_ext _ _ _ _ Hext) by (simpl; lia).
  rewrite calls_of_log_invocation, decide_True by done.
  by rewrite <-app_assoc.
Qed.

(** What one [emit] call invoked: the listeners of its snapshot, in order,
    each with the first argument of the payload; all of them when [emit]
    returns, those up to the one that threw otherwise. *)
Lemma emit_calls event payload st c st' :
  log_wf st →
  emit callf event payload st = Some (c, st') →
  ∃ invoked,
    calls_of (Sync (emissions st)) (log st') =
      map (λ l, (l, first_arg payload)) invoked ∧
    invoked `prefix_of` listeners_of st (js_String event) ∧
    (∀ v, c = Normal v → invoked = listeners_of st (js_String event)).
Proof.
  intros Hlog. unfold emit, listeners_of.
  destruct (listeners st !! js_String event) as [a|].
  2:{ intros [= <- <-]. exists []. by rewrite calls_of_fresh_sync. }
  unfold JSSet.Array_from.
  intros [[-> Hd]|(pre & l & post & e & st1 & Hls & -> & Hd & Hl)]%forEach_inv.
  - apply delivered_calls in Hd as [Hc _]; [|simpl; lia].
    simpl in Hc. rewrite calls_of_fresh_sync in Hc by done.
    by exists (set_at st a).
  - apply delivered_calls in Hd as [Hc Hn]; [|simpl; lia].
    simpl in Hc. rewrite calls_of_fresh_sync in Hc by done.
    apply callf_sound in Hl as [Hext _].
    exists (pre ++ [l]). split_and!; [|rewrite Hls|done].
    + rewrite (calls_of_sync_ext _ _ _ _ Hext) by (simpl; lia).
      rewrite calls_of_log_invocation, decide_True by done.
      by rewrite Hc, map_app.
    + rewrite (cons_middle l pre post), app_assoc. by apply prefix_app_r.
Qed.
End Delivery.

(** ** An [emitAsync] in flight *)

Lemma tasks_of_app p q1 q2 : tasks_of p (q1 ++ q2) = tasks_of p q1 ++ tasks_of p q2.
Proof. unfold tasks_of. by rewrite filter_app, fmap_app. Qed.

Lemma tasks_of_none p q : Forall (λ t, t.1 ≠ p) q → tasks_of p q = [].
Proof.
  unfold tasks_of. induction 1 as [|t q Ht _ IH]; [done|].
  by rewrite filter_cons, decide_False.
Qed.

Lemma tasks_of_own p l : tasks_of p (map (λ i, (p, i)) l) = l.
Proof.
  unfold tasks_of. induction l as [|i l IH]; [done|].
  simpl. rewrite filter_cons, decide_True by done. simpl. by f_equal.
Qed.

Lemma tasks_of_cons p p' i q :
  tasks_of p ((p', i) :: q) =
  if decide (p' = p) then i :: tasks_of p q else tasks_of p q.
Proof. unfold tasks_of. rewrite filter_cons. simpl. by case_decide. Qed.

Lemma emitAsync_in_flight event payload st :
  wf st →
  in_flight (emitAsync event payload st).1
            (listeners_of st (js_String event)) (first_arg payload) 0
            (emitAsync event payload st).2.
Proof.
  intros (_ & _ & Hlog). rewrite emitAsync_unfold.
  unfold in_flight. cbn [fst snd asyncs queue log].
  eexists. split_and!.
  - by rewrite list_lookup_middle.
  - rewrite map_map. simpl. apply map_id.
  - apply Forall_map, Forall_true. done.
  - intros i s (l & -> & _)%list_lookup_fmap_Some. simpl.
    split; [by intros [? [=]]|lia].
  - rewrite tasks_of_app, tasks_of_own, Nat.sub_0_r, tasks_of_none; [done|].
    apply Forall_forall. intros t Ht%(proj2 Hlog). lia.
  - lia.
  - by rewrite calls_of_fresh_async.
Qed.

Lemma in_flight_ext m p snapshot data j st st' :
  ext_from m st st' →
  in_flight p snapshot data j st → in_flight p snapshot data j st'.
Proof.
  intros Hext (slots & Hp & Hl & Hd & Hr & Hq & Hj & Hc).
  exists slots. split_and!; try done.
  - eapply prefix_lookup_Some; [done|apply Hext].
  - destruct (ext_queue _ _ _ Hext) as (new & -> & Hnew).
    rewrite tasks_of_app, (tasks_of_none _ new), app_nil_r; [done|].
    eapply Forall_impl; [done|]. intros t Ht. simpl in Ht.
    apply lookup_lt_Some in Hp. lia.
  - by rewrite (calls_of_async_ext _ _ _ _ Hext).
Qed.

Lemma in_flight_microtask callf p snapshot data j st st' :
  sound callf →
  run_microtask callf st = Some st' →
  in_flight p snapshot data j st →
  in_flight p snapshot data j st' ∨
  (in_flight p snapshot data (S j) st' ∧ ∃ q, queue st = (p, j) :: q).
Proof.
  intros Hsound. unfold run_microtask.
  destruct (queue st) as [|[p' i'] q] eqn:Hq0; [intros [= <-]; auto|].
  intros Hrun (slots & Hp & Hl & Hd & Hr & Hq & Hj & Hc).
  rewrite Hq0, tasks_of_cons in Hq.
  destruct (decide (p' = p)) as [->|Hne].
  - (* the next microtask of this emission *)
    assert (length snapshot - j ≠ 0) as Hlt by (by intros E; rewrite E in Hq).
    assert (i' = j ∧ tasks_of p q = seq (S j) (length snapshot - S j))
      as [Hij Hq'].
    { destruct (length snapshot - j) as [|k] eqn:E; [done|].
      simpl in Hq. injection Hq as Hi' Hq. split; [done|].
      rewrite Hq. f_equal. lia. }
    subst i'.
    assert (∃ s, slots !! j = Some s) as [s Hs].
    { apply lookup_lt_is_Some. rewrite <-Hl, length_map in Hlt. lia. }
    rewrite Hp in Hrun. simpl in Hrun. rewrite Hs in Hrun.
    destruct (callf _ _ _) as [[c st1]|] eqn:E; [|done].
    injection Hrun as <-. right. split; [|by eexists].
    apply Hsound in E as [Hext _].
    assert (snapshot !! j = Some (slot_listener s)) as Hsnap.
    { by rewrite <-Hl, list_lookup_fmap, Hs. }
    exists (alter (λ s, mkSlot (slot_listener s) (slot_data s) (Some c)) j slots).
    split_and!.
    + simpl. rewrite list_lookup_alter_eq.
      by rewrite (prefix_lookup_Some _ _ _ _ Hp (ext_asyncs _ _ _ Hext)).
    + rewrite <-Hl. apply list_eq. intros i.
      rewrite !list_lookup_fmap, list_lookup_alter.
      destruct (decide (j = i)) as [<-|?]; [|done]. by rewrite Hs.
    + apply Forall_forall. intros s' (i & Hi)%list_elem_of_lookup.
      rewrite list_lookup_alter in Hi. destruct (decide (j = i)) as [<-|?].
      * rewrite Hs in Hi. injection Hi as <-. simpl.
        eapply Forall_lookup_1 in Hd; done.
      * eapply Forall_lookup_1 in Hd; done.
    + intros i s'. rewrite list_lookup_alter.
      destruct (decide (j = i)) as [<-|?].
      * rewrite Hs. intros [= <-]. simpl. split; [lia|eauto].
      * intros Hi. rewrite (Hr _ _ Hi). lia.
    + simpl. destruct (ext_queue _ _ _ Hext) as (new & -> & Hnew). simpl.
      rewrite tasks_of_app, (tasks_of_none _ new), app_nil_r; [done|].
      eapply Forall_impl; [done|]. intros t Ht. simpl in Ht.
      apply lookup_lt_Some in Hp. lia.
    + lia.
    + simpl. rewrite (calls_of_async_ext _ _ _ _ Hext).
      rewrite calls_of_log_invocation, decide_True by done. simpl.
      rewrite Hc, (take_S_r _ _ _ Hsnap), map_app. simpl.
      by rewrite (Forall_lookup_1 _ _ _ _ Hd Hs).
  - (* a microtask of another emission *)
    left. destruct (asyncs st !! p' ≫= _) as [s|] eqn:Hs.
    + destruct (callf _ _ _) as [[c st1]|] eqn:E; [|done].
      injection Hrun as <-. apply Hsound in E as [Hext _].
      exists slots. split_and!; try done.
      * simpl. rewrite list_lookup_alter_ne by done.
        by rewrite (prefix_lookup_Some _ _ _ _ Hp (ext_asyncs _ _ _ Hext)).
      * simpl. destruct (ext_queue _ _ _ Hext) as (new & -> & Hnew). simpl.
        rewrite tasks_of_app, (tasks_of_none _ new), app_nil_r; [done|].
        eapply Forall_impl; [done|]. intros t Ht. simpl in Ht.
        apply lookup_lt_Some in Hp. lia.
      * simpl. rewrite (calls_of_async_ext _ _ _ _ Hext).
        rewrite calls_of_log_invocation, decide_False by congruence.
        by rewrite app_nil_r.
    + injection Hrun as <-. by exists slots.
Qed.
Lemma in_flight_settle p snapshot data j q s st :
  in_flight p snapshot data j st → in_flight p snapshot data j (settle q s st).
Proof. unfold settle. by destruct (promises st !! q). Qed.

Lemma in_flight_step behaviour a p snapshot data j st st' :
  step behaviour a st = Some st' →
  in_flight p snapshot data j st →
  ∃ j', j ≤ j' ∧ in_flight p snapshot data j' st'.
Proof.
  destruct a as [fuel prog|fuel|q s]; simpl.
  - destruct (run _ prog st) as [[c st1]|] eqn:E; [|done].
    intros [= <-] Hfl. exists j. split; [done|].
    apply (run_sound _ (call_sound behaviour fuel)) in E as [Hext _].
    by eapply in_flight_ext.
  - intros Hrun Hfl.
    destruct (in_flight_microtask _ _ _ _ _ _ _ (call_sound behaviour fuel)
                Hrun Hfl) as [?|[? _]]; eauto.
  - intros [= <-] Hfl. exists j. split; [done|]. by apply in_flight_settle.
Qed.

Lemma in_flight_steps behaviour acts p snapshot data j st st' :
  steps behaviour acts st = Some st' →
  in_flight p snapshot data j st →
  ∃ j', j ≤ j' ∧ in_flight p snapshot data j' st'.
Proof.
  revert j st. induction acts as [|a acts IH]; intros j st; simpl.
  { intros [= <-] ?. eauto. }
  destruct (step behaviour a st) as [st1|] eqn:E; [|done].
  intros Hsteps (j1 & ? & Hfl)%(in_flight_step _ _ _ _ _ _ _ _ E).
  destruct (IH _ _ Hsteps Hfl) as (j2 & ? & ?). exists j2. split; [lia|done].
Qed.

Lemma in_flight_drained p snapshot data j st :
  in_flight p snapshot data j st →
  tasks_of p (queue st) = [] → j = length snapshot.
Proof.
  intros (slots & _ & _ & _ & _ & Hq & Hj & _) E. rewrite E in Hq.
  destruct (length snapshot - j) eqn:E'; [lia|done].
Qed.

(** ** The completion a slot holds *)

Lemma alter_insert {A} (f : A → A) (l : list A) i x :
  l !! i = Some x → alter f i l = <[i := f x]> l.
Proof.
  intros Hi. apply list_eq. intros k. rewrite list_lookup_alter.
  destruct (decide (i = k)) as [<-|Hne].
  - rewrite Hi, list_lookup_insert_eq; [done|]. by eapply lookup_lt_Some.
  - by rewrite list_lookup_insert_ne.
Qed.

(** The microtask of slot [j] of an [emitAsync] in flight: it calls the
    listener of the slot with the payload of the slot and writes the
    completion into slot [j]; the other slots of the promise stay as they
    are, and so do its microtasks still queued. *)
Lemma microtask_own callf p q i slots s st st' :
  sound callf →
  queue st = (p, i) :: q →
  asyncs st !! p = Some slots → slots !! i = Some s →
  run_microtask callf st = Some st' →
  ∃ c st1,
    callf (slot_listener s) (slot_data s)
          (log_invocation (Async p) (slot_listener s) (slot_data s)
             (set_queue (λ _, q) st)) = Some (c, st1) ∧
    st' = store_result p i c st1 ∧
    asyncs st' !! p =
      Some (<[i := mkSlot (slot_listener s) (slot_data s) (Some c)]> slots) ∧
    tasks_of p (queue st') = tasks_of p q.
Proof.
  intros Hsound Hq Hp Hi. unfold run_microtask. rewrite Hq, Hp. simpl.
  rewrite Hi. destruct (callf _ _ _) as [[c st1]|] eqn:E; [|done].
  intros [= <-]. exists c, st1. split_and!; [done..| |].
  - apply Hsound in E as [Hext _]. simpl. rewrite list_lookup_alter_eq.
    rewrite (prefix_lookup_Some _ _ _ _ Hp (ext_asyncs _ _ _ Hext)). simpl.
    by rewrite (alter_insert _ _ _ _ Hi).
  - apply Hsound in E as [Hext _]. simpl.
    destruct (ext_queue _ _ _ Hext) as (new & -> & Hnew). simpl.
    rewrite tasks_of_app, (tasks_of_none _ new), app_nil_r; [done|].
    eapply Forall_impl; [done|]. intros t Ht. simpl in Ht.
    apply lookup_lt_Some in Hp. lia.
Qed.

(** A slot that holds a completion is never written again. *)
Lemma filled_slot_step behaviour a p snapshot data j st st' slots i s :
  in_flight p snapshot data j st →
  step behaviour a st = Some st' →
  asyncs st !! p = Some slots → slots !! i = Some s →
  is_Some (slot_result s) →
  asyncs st' !! p ≫= (λ slots', slots' !! i) = Some s.
Proof.
  intros (slots0 & Hp0 & _ & _ & Hr & Hq & _) Hstep Hp Hi Hs.
  assert (slots0 = slots) as -> by congruence.
  destruct a as [fuel prog|fuel|p' s']; simpl in Hstep.
  - destruct (run _ prog st) as [[c st1]|] eqn:E; [|done].
    injection Hstep as <-.
    apply (run_sound _ (call_sound behaviour fuel)) in E as [Hext _].
    by rewrite (prefix_lookup_Some _ _ _ _ Hp (ext_asyncs _ _ _ Hext)).
  - revert Hstep. unfold run_microtask.
    destruct (queue st) as [|[p' i'] q] eqn:Hq0.
    { intros [= <-]. by rewrite Hp. }
    destruct (asyncs st !! p' ≫= _) as [s'|] eqn:Hs'.
    2:{ intros [= <-]. simpl. by rewrite Hp. }
    destruct (call _ _ _ _ _) as [[c st1]|] eqn:E; [|done]. intros [= <-].
    apply call_sound in E as [Hext _]. simpl.
    pose proof (prefix_lookup_Some _ _ _ _ Hp (ext_asyncs _ _ _ Hext)) as Hp1.
    simpl in Hp1. rewrite list_lookup_alter.
    destruct (decide (p' = p)) as [->|?]; [|by rewrite Hp1].
    rewrite Hp1. simpl. rewrite list_lookup_alter_ne; [done|].
    intros ->. rewrite tasks_of_cons, decide_True in Hq by done.
    apply (Hr _ _ Hi) in Hs.
    destruct (length snapshot - j) as [|k]; [done|].
    simpl in Hq. injection Hq as Hij _. lia.
  - injection Hstep as <-. unfold settle.
    destruct (promises st !! p'); simpl; by rewrite Hp.
Qed.

Lemma filled_slot_steps behaviour acts p snapshot data j st st' slots i s :
  in_flight p snapshot data j st →
  steps behaviour acts st = Some st' →
  asyncs st !! p = Some slots → slots !! i = Some s →
  is_Some (slot_result s) →
  asyncs st' !! p ≫= (λ slots', slots' !! i) = Some s.
Proof.
  revert j st slots. induction acts as [|a acts IH]; intros j st slots; simpl.
  { intros _ [= <-] -> ? _. done. }
  destruct (step behaviour a st) as [st1|] eqn:E; [|done].
  intros Hfl Hsteps Hp Hi Hs.
  destruct (in_flight_step _ _ _ _ _ _ _ _ E Hfl) as (j1 & _ & Hfl1).
  pose proof (filled_slot_step _ _ _ _ _ _ _ _ _ _ _ Hfl E Hp Hi Hs) as H1.
  apply bind_Some in H1 as (slots1 & Hp1 & Hi1). by eapply IH.
Qed.

Lemma called_by_microtask_cons behaviour a acts st st1 p i l data c :
  step behaviour a st = Some st1 →
  called_by_microtask behaviour acts st1 p i l data c →
  called_by_microtask behaviour (a :: acts) st p i l data c.
Proof.
  intros Hstep (acts1 & fuel & acts2 & st2 & q & st3 & -> & Hs & Hq & Hc).
  exists (a :: acts1), fuel, acts2, st2, q, st3.
  split_and!; [done| |done..]. simpl. by rewrite Hstep.
Qed.

(** The completion a slot holds is the completion of the call that the
    microtask of this very slot made, of the listener and with the payload
    the slot names. *)
Lemma slot_history behaviour acts p snapshot data j st st' slots i s c :
  in_flight p snapshot data j st →
  steps behaviour acts st = Some st' →
  asyncs st' !! p = Some slots → slots !! i = Some s →
  slot_result s = Some c → j ≤ i →
  called_by_microtask behaviour acts st p i (slot_listener s) (slot_data s) c.
Proof.
  revert j st. induction acts as [|a acts IH]; intros j st; simpl.
  { intros (slots0 & Hp0 & _ & _ & Hr & _) [= <-] Hp Hi Hc Hj.
    assert (slots0 = slots) as -> by congruence.
    assert (i < j); [|lia]. apply (Hr _ _ Hi). by rewrite Hc. }
  destruct (step behaviour a st) as [st1|] eqn:E; [|done].
  intros Hfl Hsteps Hp Hi Hc Hj.
  assert (in_flight p snapshot data j st1 ∨
          (in_flight p snapshot data (S j) st1 ∧
           ∃ fuel q, a = AMicrotask fuel ∧ queue st = (p, j) :: q))
    as [Hfl1|[Hfl1 (fuel & q & -> & Hq)]].
  { destruct a as [fuel prog|fuel|q s']; simpl in E.
    - left. destruct (run _ prog st) as [[c' st2]|] eqn:E'; [|done].
      injection E as <-.
      apply (run_sound _ (call_sound behaviour fuel)) in E' as [Hext _].
      by eapply in_flight_ext.
    - destruct (in_flight_microtask _ _ _ _ _ _ _ (call_sound behaviour fuel)
                  E Hfl) as [?|[? [q Hq]]]; [by left|].
      right. split; [done|]. by exists fuel, q.
    - left. injection E as <-. by apply in_flight_settle. }
  - eapply called_by_microtask_cons; [done|]. by eapply IH.
  - destruct (decide (i = j)) as [->|Hne].
    2:{ eapply called_by_microtask_cons; [done|]. eapply IH; [done..|lia]. }
    simpl in E. destruct Hfl as (slots0 & Hp0 & Hl0 & _ & _ & Hq0 & _).
    assert (∃ s0, slots0 !! j = Some s0) as [s0 Hs0].
    { apply lookup_lt_is_Some. rewrite Hq, tasks_of_cons, decide_True in Hq0
        by done.
      destruct (length snapshot - j) eqn:E'; [done|].
      rewrite <-Hl0, length_map in E'. lia. }
    destruct (microtask_own _ _ _ _ _ _ _ _ (call_sound behaviour fuel)
                Hq Hp0 Hs0 E) as (c0 & st2 & Hcall & _ & Hp1 & _).
    pose proof (filled_slot_steps _ _ _ _ _ _ _ _ _ j
                  (mkSlot (slot_listener s0) (slot_data s0) (Some c0))
                  Hfl1 Hsteps Hp1) as Hkept.
    rewrite Hp in Hkept. simpl in Hkept. rewrite Hi in Hkept.
    assert (s = mkSlot (slot_listener s0) (slot_data s0) (Some c0)) as ->.
    { assert (Some s = Some (mkSlot (slot_listener s0) (slot_data s0) (Some c0)))
        as [= ->]; [|done].
      apply Hkept; [|by eexists].
      apply list_lookup_insert_eq. by eapply lookup_lt_Some. }
    simpl in Hc. injection Hc as <-. simpl.
    by exists [], fuel, acts, st, q, st2.
Qed.

(** ** The promise returned by [emitAsync] *)

Lemma outcome_of_result st s c :
  slot_result s = Some c → outcome_of st s = outcome st c.
Proof. unfold outcome_of. by intros ->. Qed.

(** Promises made by user code settle once. *)
Lemma step_promises behaviour a st st' :
  step behaviour a st = Some st' → promises st ⊆ promises st'.
Proof.
  destruct a as [fuel prog|fuel|p s]; simpl.
  - destruct (run _ prog st) as [[c st1]|] eqn:E; [|done]. intros [= <-].
    apply (run_sound _ (call_sound behaviour fuel)) in E as [Hext _].
    by rewrite (ext_promises _ _ _ Hext).
  - unfold run_microtask. destruct (queue st) as [|[p i] q]; [by intros [= <-]|].
    destruct (asyncs st !! p ≫= _) as [s|]; [|by intros [= <-]].
    destruct (call _ _ _ _ _) as [[c st1]|] eqn:E; [|done]. intros [= <-].
    apply call_sound in E as [Hext _]. simpl.
    by rewrite (ext_promises _ _ _ Hext).
  - intros [= <-]. unfold settle.
    destruct (promises st !! p) eqn:E; [done|]. simpl.
    by apply insert_subseteq.
Qed.

Lemma steps_promises behaviour acts st st' :
  steps behaviour acts st = Some st' → promises st ⊆ promises st'.
Proof.
  revert st. induction acts as [|a acts IH]; intros st; simpl.
  { by intros [= <-]. }
  destruct (step behaviour a st) as [st1|] eqn:E; [|done].
  intros ?%IH. etrans; [by eapply step_promises|done].
Qed.

Lemma outcome_stable st st' c out :
  promises st ⊆ promises st' → outcome st c = Some out →
  outcome st' c = Some out.
Proof.
  intros Hsub. destruct c as [[]|]; simpl; try done.
  destruct (promises st !! p) as [r|] eqn:E; [|done].
  by rewrite (lookup_weaken _ _ _ _ E Hsub).
Qed.

Lemma then2_slot_promise st s :
  then2 Ok Err (slot_promise st s) = Fulfilled <$> outcome_of st s.
Proof.
  unfold slot_promise, outcome_of.
  destruct (slot_result s) as [[[]|]|]; try done.
  by destruct (promises st !! p) as [[]|].
Qed.

Lemma first_rejection_handled (os : list (option EmitOutcome)) :
  first_rejection (map (fmap Fulfilled) os) = None.
Proof. induction os as [|[o|] os IH]; done. Qed.

Lemma all_fulfilled_handled (os : list (option EmitOutcome)) outs :
  all_fulfilled (map (fmap Fulfilled) os) = Some outs ↔
  Forall2 (λ o out, o = Some out) os outs.
Proof.
  revert outs. induction os as [|[o|] os IH]; intros outs; simpl.
  - split; [intros [= <-]; constructor|by intros ->%Forall2_nil_inv_l].
  - destruct (all_fulfilled _) as [l|] eqn:E.
    + split.
      * intros [= <-]. constructor; [done|]. by apply IH.
      * intros (out & outs' & [= ->] & H%IH & ->)%Forall2_cons_inv_l.
        by injection H as ->.
    + split; [done|].
      intros (out & outs' & _ & H%IH & _)%Forall2_cons_inv_l. done.
  - split; [done|]. by intros (out & outs' & ? & _)%Forall2_cons_inv_l.
Qed.

Lemma emitAsync_result_unfold st p :
  emitAsync_result st p =
  slots ← asyncs st !! p;
  Fulfilled <$> all_fulfilled (map (fmap Fulfilled) (map (outcome_of st) slots)).
Proof.
  unfold emitAsync_result. destruct (asyncs st !! p) as [slots|]; [|done].
  simpl. unfold Promise_all.
  rewrite (map_ext _ (λ s, Fulfilled <$> outcome_of st s))
    by (intros; apply then2_slot_promise).
  rewrite <-(map_map (outcome_of st) (fmap Fulfilled)).
  rewrite first_rejection_handled. by destruct (all_fulfilled _).
Qed.

Lemma emitAsync_result_not_rejected st p e :
  emitAsync_result st p ≠ Some (Rejected e).
Proof.
  rewrite emitAsync_result_unfold. destruct (asyncs st !! p); [|done].
  simpl. by destruct (all_fulfilled _).
Qed.

Lemma emitAsync_result_fulfilled st p outs :
  emitAsync_result st p = Some (Fulfilled outs) ↔
  ∃ slots, asyncs st !! p = Some slots ∧
           Forall2 (λ s out, outcome_of st s = Some out) slots outs.
Proof.
  rewrite emitAsync_result_unfold. split.
  - destruct (asyncs st !! p) as [slots|]; [|done]. simpl.
    destruct (all_fulfilled _) as [l|] eqn:E; [|done]. intros [= <-].
    exists slots. split; [done|].
    apply all_fulfilled_handled in E. by apply Forall2_fmap_l in E.
  - intros (slots & -> & H). simpl.
    assert (all_fulfilled (map (fmap Fulfilled) (map (outcome_of st) slots))
            = Some outs) as ->; [|done].
    apply all_fulfilled_handled. by apply Forall2_fmap_l.
Qed.

(** Once every slot has come to an outcome the promise is fulfilled. *)
Lemma emitAsync_result_settled st p slots :
  asyncs st !! p = Some slots →
  Forall (λ s, is_Some (outcome_of st s)) slots →
  ∃ outs, emitAsync_result st p = Some (Fulfilled outs).
Proof.
  intros Hp Hall.
  assert (∃ outs, Forall2 (λ s out, outcome_of st s = Some out) slots outs)
    as [outs Houts].
  { clear Hp. induction Hall as [|s slots [o Ho] _ [outs IH]].
    - exists []. constructor.
    - exists (o :: outs). by constructor. }
  exists outs. apply emitAsync_result_fulfilled. eauto.
Qed.

(** * The claims *)

(** C7: in every state reachable from a fresh emitter by scripts, microtasks
    and promise settlements (so by any sequence of on, once, off, clear,
    emit, emitAsync and unsubscribe calls, also from inside listeners), the
    map holds no empty Set; an event left without listeners is absent from
    the map, its listenerCount is 0 and hasListeners is false. *)
Theorem registry_holds_no_empty_set behaviour st :
  reachable behaviour st →
  (∀ key a, listeners st !! key = Some a →
     ∃ s, heap st !! a = Some s ∧ s ≠ []) ∧
  (∀ event, listeners_of st (js_String event) = [] →
     listeners st !! js_String event = None ∧
     listenerCount event st = 0 ∧ hasListeners event st = false).
Proof.
  intros (Hreg & _)%reachable_wf. split; [apply Hreg|].
  intros event. unfold listeners_of, hasListeners, listenerCount, set_at.
  destruct (listeners st !! js_String event) as [a|] eqn:E.
  - destruct (reg_nonempty _ Hreg _ _ E) as (s & -> & Hs). simpl. by intros ->.
  - intros _. by split_and!.
Qed.

Lemma registry_holds_no_empty_set_witness :
  reachable idle (after idle c7_actions) ∧
  listeners (after idle c7_actions) !! "x"%string = None ∧
  listenerCount (EStr "x") (after idle c7_actions) = 0 ∧
  listenerCount (EStr "y") (after idle c7_actions) = 1.
Proof.
  assert (reachable idle (after idle c7_actions)) as Hr.
  { apply (reachable_steps idle c7_actions fresh); [apply reachable_fresh|].
    by vm_compute. }
  split; [exact Hr|].
  destruct (registry_holds_no_empty_set idle _ Hr) as [_ H].
  destruct (H (EStr "x")) as (H1 & H2 & _); [by vm_compute|].
  split_and!; [exact H1|exact H2|by vm_compute].
Defined.

(** ** [once] *)

Lemma delete_from_elem_of key a l st a' s x :
  heap (delete_from key a l st) !! a' = Some s → x ∈ s →
  (a' = a → x ≠ l) ∧ ∃ s0, heap st !! a' = Some s0 ∧ x ∈ s0.
Proof.
  rewrite delete_from_unfold. simpl.
  destruct (decide (a = a')) as [->|Hneq].
  - rewrite list_lookup_alter_eq.
    destruct (heap st !! a') as [s0|] eqn:E; simpl; intros [= <-] Hx.
    apply JSSetFacts.elem_of_delete in Hx as [? ?]. eauto.
  - rewrite list_lookup_alter_ne by done. intros Hs Hx. split; [congruence|eauto].
Qed.

Lemma elem_of_listeners_of st key x :
  x ∈ listeners_of st key →
  ∃ a s, listeners st !! key = Some a ∧ heap st !! a = Some s ∧ x ∈ s.
Proof.
  unfold listeners_of, set_at. destruct (listeners st !! key) as [a|]; simpl;
    [|by intros ?%not_elem_of_nil].
  destruct (heap st !! a) as [s|] eqn:E; simpl;
    [eauto 10|by intros ?%not_elem_of_nil].
Qed.

(** After [on], the listener is in the event's listener set. *)
Lemma on_registered event l st :
  reg_wf st → l ∈ listeners_of (on event l st).2 (js_String event).
Proof.
  intros Hwf. rewrite on_unfold. unfold listeners_of, set_at. simpl.
  destruct (listeners st !! js_String event) as [a|] eqn:E.
  - rewrite E. destruct (reg_nonempty _ Hwf _ _ E) as (s & Hs & _).
    rewrite list_lookup_alter_eq, Hs. simpl. apply JSSetFacts.elem_of_add. auto.
  - rewrite lookup_insert_eq, list_lookup_middle by done. simpl.
    by apply list_elem_of_singleton.
Qed.

(** C1: the wrapper that once registers does not remove itself before it
    calls the listener: it calls the listener in a [try] and runs its
    unsubscribe closure in the [finally].  A listener registered with once
    that emits its own event while it runs is therefore invoked again by
    the re-entrant emission, against the "invoked at most once" of the
    method's documentation.  Here L is registered by once('x', L); called
    with 1 it emits 'x' with 2.  After emit('x', 1) the wrapper [FOnce 0]
    has been invoked by both emit calls ([Sync 0] and [Sync 1]) and the
    body of L has run twice: both of its marks are there.  A listener that
    asks hasListeners('x') while it runs is answered true (it then
    registers under 'seen'). *)
Theorem once_listener_runs_twice_on_reentrant_emit :
  let st0 := (once (EStr "x") (FUser 0) fresh).2 in
  listeners_of st0 "x" = [FOnce 0] ∧
  wrappers st0 !! 0 = Some (mkWrapper (FUser 0) 0) ∧
  (∃ st',
     emit (call marking 4) (EStr "x") [VNum 1] st0
       = Some (Normal VUndefined, st') ∧
     log st' = [mkInvocation (Sync 0) (FOnce 0) (VNum 1);
                mkInvocation (Sync 1) (FOnce 0) (VNum 2)] ∧
     listeners_of st' "first" = [FUser 9] ∧
     listeners_of st' "second" = [FUser 9] ∧
     listeners_of st' "x" = []) ∧
  (∃ st',
     emit (call probe 3) (EStr "x") [VNum 1] st0
       = Some (Normal VUndefined, st') ∧
     listeners_of st' "seen" = [FUser 9]).
Proof.
  split_and!; [by vm_compute..| |]; eexists; split_and!; by vm_compute.
Qed.

(** The closure tables only grow. *)
Lemma step_tables behaviour a st st' :
  step behaviour a st = Some st' →
  unsubs st `prefix_of` unsubs st' ∧ wrappers st `prefix_of` wrappers st'.
Proof.
  destruct a as [fuel prog|fuel|p s]; simpl.
  - destruct (run _ prog st) as [[c st1]|] eqn:E; [|done]. intros [= <-].
    apply (run_sound _ (call_sound behaviour fuel)) in E as [Hext _].
    split; apply Hext.
  - unfold run_microtask. destruct (queue st) as [|[p i] q]; [by intros [= <-]|].
    destruct (asyncs st !! p ≫= _) as [s|]; [|by intros [= <-]].
    destruct (call _ _ _ _ _) as [[c st1]|] eqn:E; [|done]. intros [= <-].
    apply call_sound in E as [Hext _]. split; apply Hext.
  - intros [= <-]. unfold settle. by destruct (promises st !! p).
Qed.

Lemma steps_tables behaviour acts st st' :
  steps behaviour acts st = Some st' →
  unsubs st `prefix_of` unsubs st' ∧ wrappers st `prefix_of` wrappers st'.
Proof.
  revert st. induction acts as [|a acts IH]; intros st; simpl.
  { by intros [= <-]. }
  destruct (step behaviour a st) as [st1|] eqn:E; [|done].
  intros [? ?]%IH. apply step_tables in E as [? ?]. split; by etrans.
Qed.

(** ** The closure returned by [on] *)

(** As long as the [Set] a closure captured is the one stored under its
    key, calling the closure is calling [off]. *)
Lemma unsubscribe_off_same_set h event l a st :
  unsubs st !! h = Some (mkUnsub (js_String event) a l) →
  listeners st !! js_String event = Some a →
  unsubscribe h st = (off event l st).2.
Proof. intros Hh Hk. unfold unsubscribe, off. by rewrite Hh, Hk. Qed.

(** C2: the closure returned by on is not off.  It keeps the Set it
    captured: once that Set has been emptied and dropped from the map, a
    later Set stored under the same key is dropped from the map by every
    further call of the closure.  Here M is registered after L was
    unsubscribed; off(x, L) would return false and change nothing, while a
    second call of L's closure unregisters M. *)
Theorem unsubscribe_twice_drops_later_listeners :
  let '(h, st0) := on (EStr "x") (FUser 0) fresh in
  let st1 := unsubscribe h st0 in
  let st2 := (on (EStr "x") (FUser 1) st1).2 in
  listeners_of st2 "x" = [FUser 1] ∧
  off (EStr "x") (FUser 0) st2 = (false, st2) ∧
  listeners_of (unsubscribe h st2) "x" = [] ∧
  listenerCount (EStr "x") (unsubscribe h st2) = 0.
Proof. by vm_compute. Qed.

(** ** [emit] *)

Lemma after_wf behaviour acts :
  is_Some (steps behaviour acts fresh) → wf (after behaviour acts).
Proof.
  intros [st Hst]. unfold after. rewrite Hst. simpl.
  eapply steps_wf; [done|apply fresh_wf].
Qed.

(** C4: when the listeners of e are L1 .. Ln in registration order, those
    before Li return and Li throws, emit(e, p) ends by throwing what Li
    threw, and what this emit call invoked is L1 .. Li, each once with p and
    in that order; no listener after Li is invoked by it. *)
Theorem emit_throw_aborts_delivery
    behaviour fuel event payload st pre Li post st1 err st2 :
  wf st →
  listeners_of st (js_String event) = pre ++ Li :: post →
  delivered (call behaviour fuel) (Sync (emissions st)) (first_arg payload)
            pre (set_emissions S st) st1 →
  call behaviour fuel Li (first_arg payload)
       (log_invocation (Sync (emissions st)) Li (first_arg payload) st1)
    = Some (Throw err, st2) →
  emit (call behaviour fuel) event payload st = Some (Throw err, st2) ∧
  calls_of (Sync (emissions st)) (log st2) =
    map (λ l, (l, first_arg payload)) (pre ++ [Li]) ∧
  NoDup (pre ++ [Li]) ∧
  ∀ l, l ∈ post → l ∉ (calls_of (Sync (emissions st)) (log st2)).*1.
Proof.
  intros (Hreg & _ & Hlog) Hls Hpre HLi.
  assert (∃ a, listeners st !! js_String event = Some a ∧
               heap st !! a = Some (pre ++ Li :: post)) as (a & Hk & Ha).
  { assert (Li ∈ listeners_of st (js_String event)) as Hin
      by (rewrite Hls; set_solver).
    apply elem_of_listeners_of in Hin as (a & s & Hk & Hs & _).
    exists a. split; [done|]. revert Hls. unfold listeners_of, set_at.
    rewrite Hk, Hs. simpl. by intros ->. }
  assert (NoDup (pre ++ Li :: post)) as Hnd by by eapply reg_NoDup.
  assert (calls_of (Sync (emissions st)) (log st2) =
          map (λ l, (l, first_arg payload)) (pre ++ [Li])) as Hcalls.
  { pose proof (call_sound behaviour fuel) as Hsound.
    apply (delivered_calls _ Hsound) in Hpre as [Hc Hn]; [|simpl; lia].
    simpl in Hc. rewrite calls_of_fresh_sync in Hc by done.
    apply Hsound in HLi as [Hext _].
    rewrite (calls_of_sync_ext _ _ _ _ Hext) by (simpl; lia).
    rewrite calls_of_log_invocation, decide_True by done.
    by rewrite Hc, map_app. }
  split_and!.
  - unfold emit, JSSet.Array_from, set_at. rewrite Hk, Ha. simpl.
    rewrite (forEach_delivered _ _ _ _ _ _ _ Hpre). simpl. by rewrite HLi.
  - done.
  - rewrite (cons_middle Li pre post), app_assoc in Hnd.
    by apply NoDup_app in Hnd as (? & _ & _).
  - intros l Hl. rewrite Hcalls, <-list_fmap_compose.
    rewrite (cons_middle Li pre post), app_assoc in Hnd.
    apply NoDup_app in Hnd as (_ & Hdisj & _).
    change (l ∉ id <$> (pre ++ [Li])). rewrite list_fmap_id.
    intros Hin. by eapply Hdisj.
Qed.

Lemma emit_throw_aborts_delivery_witness :
  ∃ st2,
    emit (call thrower 1) (EStr "x") [VNum 5] (after thrower three_on_x)
      = Some (Throw (VError "boom"), st2) ∧
    calls_of (Sync 0) (log st2) = [(FUser 0, VNum 5); (FUser 1, VNum 5)].
Proof.
  eexists.
  edestruct (emit_throw_aborts_delivery thrower 1 (EStr "x") [VNum 5]
               (after thrower three_on_x) [FUser 0] (FUser 1) [FUser 2])
    as (H1 & H2 & _).
  - apply after_wf. vm_compute. by eexists.
  - by vm_compute.
  - eapply delivered_cons; [by vm_compute|apply delivered_nil].
  - by vm_compute.
  - split; [exact H1|exact H2].
Defined.

(** ** [emitAsync] *)

Lemma emitAsync_steps_in_flight behaviour event payload acts st st' :
  wf st →
  steps behaviour acts (emitAsync event payload st).2 = Some st' →
  ∃ j, in_flight (emitAsync event payload st).1
                 (listeners_of st (js_String event)) (first_arg payload) j st'.
Proof.
  intros Hwf Hsteps.
  destruct (in_flight_steps _ _ _ _ _ _ _ _ Hsteps
              (emitAsync_in_flight event payload st Hwf)) as (j & _ & ?).
  eauto.
Qed.

(** A microtask ends when the call of its listener ends, whether the
    listener returned or threw: the completion goes into its slot. *)
Lemma run_microtask_stores callf st p i q s c st1 :
  queue st = (p, i) :: q →
  asyncs st !! p ≫= (λ slots, slots !! i) = Some s →
  callf (slot_listener s) (slot_data s)
        (log_invocation (Async p) (slot_listener s) (slot_data s)
           (set_queue (λ _, q) st)) = Some (c, st1) →
  run_microtask callf st = Some (store_result p i c st1).
Proof. intros Hq Hs Hc. unfold run_microtask. by rewrite Hq, Hs, Hc. Qed.

(** C3: whatever happens after emitAsync(e, p) took its snapshot (scripts,
    microtasks, promises settling, in any order), the promise it returned
    is never rejected.  It has one slot per snapshot listener, in snapshot
    order, each with the payload; it is fulfilled exactly with the outcomes
    of the slots, in slot order, and as soon as every slot has an outcome.
    The completion a slot holds is the completion of the call of its own
    listener with the payload, made by the microtask of that slot, and the
    slot's outcome is Err of what that call threw or its promise was
    rejected with, Ok of what it returned or its promise was fulfilled
    with.  At any time the first j listeners of the snapshot have been
    invoked, once each, exactly the first j slots hold a completion, and
    the microtasks of the others are still queued in order, whatever the
    first j did.  The microtask at the head of the queue ends whenever the
    call of its listener ends, throwing or not; it writes the completion
    into its own slot and leaves the other slots and the queued microtasks
    of its siblings as they are.  An outcome a slot has come to is never
    changed by anything that happens later.  When no microtask of the
    promise is left in the queue every snapshot listener has been invoked
    once and every slot holds a completion. *)
Theorem emitAsync_never_rejects behaviour event payload acts st st' :
  wf st →
  let p := (emitAsync event payload st).1 in
  let snapshot := listeners_of st (js_String event) in
  let data := first_arg payload in
  steps behaviour acts (emitAsync event payload st).2 = Some st' →
  (∀ e, emitAsync_result st' p ≠ Some (Rejected e)) ∧
  ∃ slots j,
    asyncs st' !! p = Some slots ∧
    map slot_listener slots = snapshot ∧
    Forall (λ s, slot_data s = data) slots ∧
    (∀ outs, emitAsync_result st' p = Some (Fulfilled outs) ↔
             Forall2 (λ s out, outcome_of st' s = Some out) slots outs) ∧
    (Forall (λ s, is_Some (outcome_of st' s)) slots →
     ∃ outs, emitAsync_result st' p = Some (Fulfilled outs)) ∧
    (∀ i s c,
       slots !! i = Some s → slot_result s = Some c →
       called_by_microtask behaviour acts (emitAsync event payload st).2
                           p i (slot_listener s) data c ∧
       outcome_of st' s = outcome st' c) ∧
    tasks_of p (queue st') = seq j (length snapshot - j) ∧
    (∀ i s, slots !! i = Some s → is_Some (slot_result s) ↔ i < j) ∧
    calls_of (Async p) (log st') = map (λ l, (l, data)) (take j snapshot) ∧
    (∀ fuel i q s c st1,
       queue st' = (p, i) :: q → slots !! i = Some s →
       call behaviour fuel (slot_listener s) (slot_data s)
            (log_invocation (Async p) (slot_listener s) (slot_data s)
               (set_queue (λ _, q) st')) = Some (c, st1) →
       step behaviour (AMicrotask fuel) st' = Some (store_result p i c st1) ∧
       asyncs (store_result p i c st1) !! p =
         Some (<[i := mkSlot (slot_listener s) (slot_data s) (Some c)]> slots) ∧
       tasks_of p (queue (store_result p i c st1)) = tasks_of p q) ∧
    (∀ acts' st'' i s out,
       steps behaviour acts' st' = Some st'' →
       slots !! i = Some s → outcome_of st' s = Some out →
       asyncs st'' !! p ≫= (λ slots', slots' !! i) = Some s ∧
       outcome_of st'' s = Some out) ∧
    (tasks_of p (queue st') = [] →
     calls_of (Async p) (log st') = map (λ l, (l, data)) snapshot ∧
     Forall (λ s, is_Some (slot_result s)) slots).
Proof.
  intros Hwf p snapshot data Hsteps.
  split; [intros e; apply emitAsync_result_not_rejected|].
  pose proof (emitAsync_in_flight event payload st Hwf) as Hfl0.
  destruct (emitAsync_steps_in_flight _ _ _ _ _ _ Hwf Hsteps) as (j & Hfl).
  pose proof (in_flight_drained _ _ _ _ _ Hfl) as Hdrained.
  pose proof Hfl as (slots & Hp & Hl & Hd & Hr & Hq & Hj & Hc).
  fold p in Hp, Hq, Hc, Hfl, Hfl0.
  exists slots, j. split_and!; try done.
  - intros outs. rewrite emitAsync_result_fulfilled. split.
    + intros (slots' & Hp' & H). congruence.
    + eauto.
  - by apply emitAsync_result_settled.
  - intros i s c Hi Hs. split; [|by apply outcome_of_result].
    unfold data. rewrite <-(Forall_lookup_1 _ _ _ _ Hd Hi).
    eapply slot_history; [exact Hfl0|done..|lia].
  - intros fuel i q s c st1 Hq' Hs Hcall.
    assert (run_microtask (call behaviour fuel) st' = Some (store_result p i c st1))
      as Hrun.
    { eapply run_microtask_stores; [done| |done]. by rewrite Hp. }
    split; [done|].
    destruct (microtask_own _ _ _ _ _ _ _ _ (call_sound behaviour fuel)
                Hq' Hp Hs Hrun) as (c0 & st2 & Hcall0 & _ & Hp1 & Hq1).
    rewrite Hcall in Hcall0. injection Hcall0 as <- <-. done.
  - intros acts' st'' i s out Hsteps' Hi Hout.
    assert (∃ c, slot_result s = Some c) as [c Hs].
    { unfold outcome_of in Hout. destruct (slot_result s); [eauto|done]. }
    split.
    + eapply filled_slot_steps; [exact Hfl|done..|]. by rewrite Hs.
    + rewrite (outcome_of_result st' _ _ Hs) in Hout.
      rewrite (outcome_of_result st'' _ _ Hs).
      eapply outcome_stable; [|done]. by eapply steps_promises.
  - intros ->%Hdrained. split.
    + rewrite Hc. by rewrite firstn_all.
    + apply Forall_forall. intros s (i & Hi)%list_elem_of_lookup.
      apply (Hr _ _ Hi). apply lookup_lt_Some in Hi.
      by rewrite <-Hl, length_map.
Qed.

Lemma emitAsync_never_rejects_witness :
  ∃ st',
    steps mixed [AMicrotask 1; AMicrotask 1]
          (emitAsync (EStr "z") [] (after mixed two_on_z)).2 = Some st' ∧
    (∀ e, emitAsync_result st' 0 ≠ Some (Rejected e)) ∧
    emitAsync_result st' 0 =
      Some (Fulfilled [Err (VError "boom"); Ok (VStr "ok")]).
Proof.
  eexists. split; [by vm_compute|].
  edestruct (emitAsync_never_rejects mixed (EStr "z") []
               [AMicrotask 1; AMicrotask 1] (after mixed two_on_z))
    as (H1 & _).
  - apply after_wf. vm_compute. by eexists.
  - by vm_compute.
  - split; [exact H1|by vm_compute].
Defined.

(** C5: whatever happens after emitAsync(e, p) took its snapshot, and in
    whatever order microtasks run and promises settle, if the promise it
    returned is fulfilled, the array has the length of the snapshot and its
    i-th element is the outcome of the i-th snapshot listener: the outcome
    of the completion of the call of that listener with the payload, made
    by the microtask of slot i, and kept in slot i.  Without a listener set
    for e it is fulfilled with the empty array. *)
Theorem emitAsync_result_in_snapshot_order
    behaviour event payload acts st st' :
  wf st →
  let p := (emitAsync event payload st).1 in
  let snapshot := listeners_of st (js_String event) in
  let data := first_arg payload in
  steps behaviour acts (emitAsync event payload st).2 = Some st' →
  (listeners st !! js_String event = None →
   emitAsync_result st' p = Some (Fulfilled [])) ∧
  ∀ outs, emitAsync_result st' p = Some (Fulfilled outs) →
    length outs = length snapshot ∧
    ∀ i l, snapshot !! i = Some l →
      ∃ s out, asyncs st' !! p ≫= (λ slots, slots !! i) = Some s ∧
               slot_listener s = l ∧
               outcome_of st' s = Some out ∧
               outs !! i = Some out ∧
               ∃ c, called_by_microtask behaviour acts
                      (emitAsync event payload st).2 p i l data c ∧
                    outcome st' c = Some out.
Proof.
  intros Hwf p snapshot data Hsteps.
  pose proof (emitAsync_in_flight event payload st Hwf) as Hfl0.
  destruct (emitAsync_steps_in_flight _ _ _ _ _ _ Hwf Hsteps) as (j & Hfl).
  destruct Hfl as (slots & Hp & Hl & Hd & _).
  fold p in Hp, Hfl0. fold snapshot in Hl.
  split.
  - intros Hnone. apply emitAsync_result_fulfilled. exists slots.
    split; [done|]. unfold snapshot, listeners_of in Hl. rewrite Hnone in Hl.
    destruct slots; [constructor|done].
  - intros outs (slots' & Hp' & Houts)%emitAsync_result_fulfilled.
    assert (slots' = slots) as -> by congruence.
    pose proof (Forall2_length _ _ _ Houts) as Hlen.
    split; [by rewrite <-Hlen, <-Hl, length_map|].
    intros i l Hi. rewrite <-Hl, list_lookup_fmap in Hi.
    destruct (slots !! i) as [s|] eqn:Hs; [|done]. injection Hi as <-.
    destruct (Forall2_lookup_l _ _ _ _ _ Houts Hs) as (out & Hout & Ho).
    exists s, out. rewrite Hp. simpl. rewrite Hs. split_and!; try done.
    assert (∃ c, slot_result s = Some c) as [c Hc].
    { unfold outcome_of in Ho. destruct (slot_result s); [eauto|done]. }
    exists c. split; [|by rewrite <-(outcome_of_result _ _ _ Hc)].
    unfold data. rewrite <-(Forall_lookup_1 _ _ _ _ Hd Hs).
    eapply slot_history; [exact Hfl0|done..|lia].
Qed.

Lemma emitAsync_result_in_snapshot_order_witness :
  ∃ st',
    steps deferred [AMicrotask 1; AMicrotask 1;
                    ASettle 1 (Fulfilled (VStr "second"));
                    ASettle 0 (Rejected (VError "first"))]
          (emitAsync (EStr "z") [] (after deferred two_on_z)).2 = Some st' ∧
    emitAsync_result st' 0 =
      Some (Fulfilled [Err (VError "first"); Ok (VStr "second")]) ∧
    ∀ i l, [FUser 0; FUser 1] !! i = Some l →
      ∃ s out, asyncs st' !! 0 ≫= (λ slots, slots !! i) = Some s ∧
               slot_listener s = l ∧
               outcome_of st' s = Some out ∧
               [Err (VError "first"); Ok (VStr "second")] !! i = Some out ∧
               ∃ c, called_by_microtask deferred
                      [AMicrotask 1; AMicrotask 1;
                       ASettle 1 (Fulfilled (VStr "second"));
                       ASettle 0 (Rejected (VError "first"))]
                      (emitAsync (EStr "z") [] (after deferred two_on_z)).2
                      0 i l VUndefined c ∧
                    outcome st' c = Some out.
Proof.
  eexists. split; [by vm_compute|].
  edestruct (emitAsync_result_in_snapshot_order deferred (EStr "z") []
               [AMicrotask 1; AMicrotask 1;
                ASettle 1 (Fulfilled (VStr "second"));
                ASettle 0 (Rejected (VError "first"))]
               (after deferred two_on_z))
    as (_ & H2).
  - apply after_wf. vm_compute. by eexists.
  - by vm_compute.
  - split; [by vm_compute|].
    edestruct H2 as (_ & H3); [by vm_compute|exact H3].
Defined.

(** ** Snapshots *)

(** What an [emit] call and an [emitAsync] call invoke. *)
Lemma emission_calls behaviour fuel event payload st :
  wf st →
  (∀ c st',
     emit (call behaviour fuel) event payload st = Some (c, st') →
     ∃ invoked,
       calls_of (Sync (emissions st)) (log st')
         = map (λ l, (l, first_arg payload)) invoked ∧
       invoked `prefix_of` listeners_of st (js_String event) ∧
       (∀ v, c = Normal v → invoked = listeners_of st (js_String event))) ∧
  (∀ acts st',
     steps behaviour acts (emitAsync event payload st).2 = Some st' →
     ∃ invoked,
       calls_of (Async (emitAsync event payload st).1) (log st')
         = map (λ l, (l, first_arg payload)) invoked ∧
       invoked `prefix_of` listeners_of st (js_String event) ∧
       (tasks_of (emitAsync event payload st).1 (queue st') = [] →
        invoked = listeners_of st (js_String event))).
Proof.
  intros Hwf. split.
  - intros c st' Hemit.
    apply (emit_calls _ (call_sound behaviour fuel) _ _ _ _ _); [|done].
    apply Hwf.
  - intros acts st' Hsteps.
    destruct (emitAsync_steps_in_flight _ _ _ _ _ _ Hwf Hsteps) as (j & Hfl).
    pose proof (in_flight_drained _ _ _ _ _ Hfl) as Hdrained.
    destruct Hfl as (slots & _ & _ & _ & _ & _ & _ & Hc).
    exists (take j (listeners_of st (js_String event))).
    split_and!; [done|apply prefix_take|].
    intros ->%Hdrained. apply firstn_all.
Qed.

(** C6, as stated, fails in its last clause: an emit call does not invoke
    every listener of its snapshot when one of them throws.  Here the
    snapshot is L0, L1, L2 and L1 throws: L2 is never invoked. *)
Lemma emit_skips_snapshot_listeners_after_throw :
  ∃ st',
    listeners_of (after thrower three_on_x) "x" = [FUser 0; FUser 1; FUser 2] ∧
    emit (call thrower 1) (EStr "x") [VNum 5] (after thrower three_on_x)
      = Some (Throw (VError "boom"), st') ∧
    calls_of (Sync 0) (log st') = [(FUser 0, VNum 5); (FUser 1, VNum 5)].
Proof. eexists. split_and!; by vm_compute. Qed.

(** C6, amended: an emission invokes only listeners of the snapshot taken
    at its start, in snapshot order and each at most once, so neither a
    listener removed before it started nor one added while it runs.  An
    emit call that returns has invoked the whole snapshot, one that throws
    has invoked it up to the listener that threw; an emitAsync has invoked
    a prefix of its snapshot at any later time, and the whole of it once
    none of its microtasks is left in the queue. *)
Theorem emission_invokes_only_its_snapshot behaviour fuel event payload st :
  wf st →
  let snapshot := listeners_of st (js_String event) in
  let data := first_arg payload in
  NoDup snapshot ∧
  (∀ c st',
     emit (call behaviour fuel) event payload st = Some (c, st') →
     ∃ invoked,
       calls_of (Sync (emissions st)) (log st') = map (λ l, (l, data)) invoked ∧
       invoked `prefix_of` snapshot ∧
       (∀ v, c = Normal v → invoked = snapshot)) ∧
  (∀ acts st',
     steps behaviour acts (emitAsync event payload st).2 = Some st' →
     ∃ invoked,
       calls_of (Async (emitAsync event payload st).1) (log st')
         = map (λ l, (l, data)) invoked ∧
       invoked `prefix_of` snapshot ∧
       (tasks_of (emitAsync event payload st).1 (queue st') = [] →
        invoked = snapshot)).
Proof.
  intros Hwf snapshot data. split; [|by apply emission_calls].
  unfold snapshot, listeners_of, set_at.
  destruct (listeners st !! js_String event) as [a|]; [|constructor].
  destruct (heap st !! a) as [s|] eqn:E; [|constructor].
  simpl. eapply reg_NoDup; [apply Hwf|done].
Qed.

Lemma emission_invokes_only_its_snapshot_witness :
  NoDup (listeners_of (after thrower three_on_x) "x") ∧
  ∃ invoked,
    calls_of (Sync 0) (log (after thrower [ARun 2
       (script [OOn (EStr "x") 0; OOn (EStr "x") 2; OOff (EStr "x") 0;
                OEmit (EStr "x") [VNum 5]])]))
      = map (λ l, (l, VNum 5)) invoked ∧
    invoked = [FUser 2].
Proof.
  split.
  - apply (emission_invokes_only_its_snapshot thrower 1 (EStr "x") []
             (after thrower three_on_x)).
    apply after_wf. vm_compute. by eexists.
  - edestruct (emission_invokes_only_its_snapshot thrower 1 (EStr "x") [VNum 5]
                 (after thrower [ARun 1
                    (script [OOn (EStr "x") 0; OOn (EStr "x") 2;
                             OOff (EStr "x") 0])]))
      as (_ & H & _).
    + apply after_wf. vm_compute. by eexists.
    + edestruct H as (invoked & H1 & _ & H3); [by vm_compute|].
      exists invoked. split; [exact H1|]. by apply (H3 VUndefined).
Defined.

(** C10: with the payload argument omitted, every listener that emit or
    emitAsync invokes is called with undefined, and they do invoke them.
    emit calls the listeners of its snapshot with undefined one after the
    other: when each of these calls returns, emit returns, and an emit that
    returned has invoked the whole snapshot with undefined.  emitAsync puts
    undefined in every slot and queues one microtask per snapshot listener;
    the microtask of slot i, when it is at the head of the queue, calls the
    i-th listener of the snapshot with undefined and ends when that call
    ends; when none of the microtasks is left in the queue the whole
    snapshot has been invoked with undefined. *)
Theorem omitted_payload_is_undefined behaviour fuel event st :
  wf st →
  let snapshot := listeners_of st (js_String event) in
  let p := (emitAsync event [] st).1 in
  (∀ c st' l data,
     emit (call behaviour fuel) event [] st = Some (c, st') →
     (l, data) ∈ calls_of (Sync (emissions st)) (log st') →
     data = VUndefined) ∧
  (∀ acts st' l data,
     steps behaviour acts (emitAsync event [] st).2 = Some st' →
     (l, data) ∈ calls_of (Async (emitAsync event [] st).1) (log st') →
     data = VUndefined) ∧
  (∀ st' v,
     emit (call behaviour fuel) event [] st = Some (Normal v, st') →
     calls_of (Sync (emissions st)) (log st') =
       map (λ l, (l, VUndefined)) (listeners_of st (js_String event))) ∧
  (∀ st',
     snapshot ≠ [] →
     delivered (call behaviour fuel) (Sync (emissions st)) VUndefined
               snapshot (set_emissions S st) st' →
     emit (call behaviour fuel) event [] st = Some (Normal VUndefined, st')) ∧
  asyncs (emitAsync event [] st).2 !! p =
    Some (map (λ l, mkSlot l VUndefined None) snapshot) ∧
  tasks_of p (queue (emitAsync event [] st).2) = seq 0 (length snapshot) ∧
  (∀ acts st' i q,
     steps behaviour acts (emitAsync event [] st).2 = Some st' →
     queue st' = (p, i) :: q →
     ∃ l, snapshot !! i = Some l ∧
       ∀ fuel' c st1,
         call behaviour fuel' l VUndefined
              (log_invocation (Async p) l VUndefined (set_queue (λ _, q) st'))
           = Some (c, st1) →
         step behaviour (AMicrotask fuel') st' = Some (store_result p i c st1) ∧
         calls_of (Async p) (log (store_result p i c st1)) =
           calls_of (Async p) (log st') ++ [(l, VUndefined)]) ∧
  (∀ acts st',
     steps behaviour acts (emitAsync event [] st).2 = Some st' →
     tasks_of p (queue st') = [] →
     calls_of (Async p) (log st') = map (λ l, (l, VUndefined)) snapshot).
Proof.
  intros Hwf snapshot p.
  destruct (emission_calls behaviour fuel event [] st Hwf) as (Hsync & Hasync).
  pose proof (emitAsync_in_flight event [] st Hwf) as Hfl0.
  split_and!.
  - intros c st' l data (invoked & -> & _)%Hsync.
    by intros (? & [= _ ->] & _)%list_elem_of_fmap.
  - intros acts st' l data (invoked & -> & _)%Hasync.
    by intros (? & [= _ ->] & _)%list_elem_of_fmap.
  - intros st' v (invoked & -> & _ & Hall)%Hsync. by rewrite (Hall v).
  - intros st' Hne Hd. unfold emit, JSSet.Array_from.
    unfold snapshot, listeners_of in Hne, Hd.
    destruct (listeners st !! js_String event) as [a|]; [|done].
    rewrite <-(app_nil_r (set_at st a)).
    by rewrite (forEach_delivered _ _ _ _ _ _ _ Hd).
  - unfold p. rewrite emitAsync_unfold. cbn [fst snd asyncs].
    by rewrite list_lookup_middle.
  - destruct Hfl0 as (_ & _ & _ & _ & _ & Hq & _).
    fold p snapshot in Hq. by rewrite Nat.sub_0_r in Hq.
  - intros acts st' i q Hsteps Hq.
    destruct (emitAsync_steps_in_flight _ _ _ _ _ _ Hwf Hsteps) as (j & Hfl).
    destruct Hfl as (slots & Hp & Hl & Hd & _ & Hq' & _).
    fold p snapshot in Hp, Hl, Hq'.
    rewrite Hq, tasks_of_cons, decide_True in Hq' by done.
    assert (i < length slots) as [s Hs]%lookup_lt_is_Some.
    { rewrite <-(length_map slot_listener), Hl.
      destruct (length snapshot - j) eqn:E; [done|].
      simpl in Hq'. injection Hq' as -> _. lia. }
    pose proof (Forall_lookup_1 _ _ _ _ Hd Hs) as Hdata. simpl in Hdata.
    exists (slot_listener s). split.
    { by rewrite <-Hl, list_lookup_fmap, Hs. }
    intros fuel' c st1 Hcall. split.
    + eapply run_microtask_stores; [done|by rewrite Hp; simpl|].
      by rewrite Hdata.
    + apply call_sound in Hcall as [Hext _]. simpl.
      rewrite (calls_of_async_ext _ _ _ _ Hext).
      by rewrite calls_of_log_invocation, decide_True.
  - intros acts st' Hsteps Hq.
    destruct (Hasync _ _ Hsteps) as (invoked & Hc & _ & Hall).
    fold p in Hc, Hall. by rewrite Hc, (Hall Hq).
Qed.

Lemma omitted_payload_is_undefined_witness :
  (∃ st',
     emit (call idle 1) (EStr "x") [] (after idle three_on_x)
       = Some (Normal VUndefined, st') ∧
     calls_of (Sync 0) (log st') =
       [(FUser 0, VUndefined); (FUser 1, VUndefined); (FUser 2, VUndefined)]) ∧
  (∃ st',
     steps idle [AMicrotask 1; AMicrotask 1; AMicrotask 1]
           (emitAsync (EStr "x") [] (after idle three_on_x)).2 = Some st' ∧
     calls_of (Async 0) (log st') =
       [(FUser 0, VUndefined); (FUser 1, VUndefined); (FUser 2, VUndefined)]).
Proof.
  destruct (omitted_payload_is_undefined idle 1 (EStr "x")
              (after idle three_on_x))
    as (_ & _ & Hemit & _ & _ & _ & _ & Hasync).
  { apply after_wf. vm_compute. by eexists. }
  split; eexists.
  - split; [by vm_compute|]. erewrite Hemit; by vm_compute.
  - split; [by vm_compute|].
    etrans; [|by vm_compute].
    apply (Hasync [AMicrotask 1; AMicrotask 1; AMicrotask 1]); by vm_compute.
Defined.

(** ** The listener set of a key, method by method *)

Lemma listeners_of_on event l st key :
  reg_wf st →
  listeners_of (on event l st).2 key =
    if decide (key = js_String event)
    then JSSet.add l (listeners_of st key) else listeners_of st key.
Proof.
  intros Hwf. rewrite on_unfold. unfold listeners_of, set_at. simpl.
  destruct (listeners st !! js_String event) as [a|] eqn:E.
  - destruct (reg_nonempty _ Hwf _ _ E) as (s & Hs & _).
    case_decide as Hk; subst.
    + by rewrite E, list_lookup_alter_eq, Hs.
    + destruct (listeners st !! key) as [a'|] eqn:E'; [|done].
      rewrite list_lookup_alter_ne; [done|].
      intros ->. apply Hk. by eapply reg_inj.
  - case_decide as Hk; subst.
    + by rewrite lookup_insert_eq, list_lookup_middle, E.
    + rewrite lookup_insert_ne by done.
      destruct (listeners st !! key) as [a'|] eqn:E'; [|done].
      by rewrite lookup_app_l by by eapply reg_lookup_lt.
Qed.

Lemma listeners_of_once event l st key :
  reg_wf st →
  listeners_of (once event l st).2 key =
    if decide (key = js_String event)
    then JSSet.add (FOnce (length (wrappers st))) (listeners_of st key)
    else listeners_of st key.
Proof.
  intros Hwf. rewrite once_unfold.
  by rewrite <-(listeners_of_on event (FOnce (length (wrappers st)))).
Qed.

Lemma listeners_of_delete_from key0 a l st key :
  reg_wf st → listeners st !! key0 = Some a →
  listeners_of (delete_from key0 a l st) key =
    if decide (key = key0)
    then JSSet.delete l (listeners_of st key) else listeners_of st key.
Proof.
  intros Hwf E. rewrite delete_from_unfold. unfold listeners_of, set_at. simpl.
  destruct (reg_nonempty _ Hwf _ _ E) as (s & Hs & _).
  rewrite list_lookup_alter_eq, Hs. simpl.
  assert (∀ a', listeners st !! key = Some a' → key ≠ key0 →
                alter (JSSet.delete l) a (heap st) !! a' = heap st !! a')
    as Hother.
  { intros a' E' Hk. rewrite list_lookup_alter_ne; [done|].
    intros ->. apply Hk. by eapply reg_inj. }
  destruct (decide (key = key0)) as [->|Hk]; case_decide as Hsz.
  - rewrite lookup_delete_eq, E, Hs. simpl.
    by destruct (JSSet.delete l s).
  - by rewrite E, list_lookup_alter_eq, Hs.
  - rewrite lookup_delete_ne by done.
    destruct (listeners st !! key) as [a'|] eqn:E'; [|done].
    by rewrite Hother.
  - destruct (listeners st !! key) as [a'|] eqn:E'; [|done].
    by rewrite Hother.
Qed.

Lemma listeners_of_off event l st key :
  reg_wf st →
  listeners_of (off event l st).2 key =
    if decide (key = js_String event)
    then JSSet.delete l (listeners_of st key) else listeners_of st key.
Proof.
  intros Hwf. unfold off.
  destruct (listeners st !! js_String event) as [a|] eqn:E.
  - by apply listeners_of_delete_from.
  - simpl. case_decide; subst; [|done]. unfold listeners_of. by rewrite E.
Qed.

Lemma listeners_of_clear event st key :
  listeners_of (clear (Some event) st) key =
    if decide (key = js_String event) then [] else listeners_of st key.
Proof.
  unfold listeners_of, set_at. simpl. case_decide; subst.
  - by rewrite lookup_delete_eq.
  - by rewrite lookup_delete_ne.
Qed.

Lemma listeners_of_emitAsync event payload st key :
  listeners_of (emitAsync event payload st).2 key = listeners_of st key.
Proof. by rewrite emitAsync_unfold. Qed.

(** [emit] itself writes nothing to the registry: what holds of the
    listener sets after every call of a listener holds after [emit]. *)
Lemma emit_frame callf event payload key st c st' :
  (∀ l data s c s', callf l data s = Some (c, s') →
                    listeners_of s' key = listeners_of s key) →
  emit callf event payload st = Some (c, st') →
  listeners_of st' key = listeners_of st key.
Proof.
  intros Hcall. unfold emit.
  destruct (listeners st !! js_String event) as [a|]; [|by intros [= <- <-]].
  change (listeners_of st key) with (listeners_of (set_emissions S st) key).
  generalize (set_emissions S st) (JSSet.Array_from (set_at st a)).
  intros s ls. revert s. induction ls as [|l ls IH]; intros s; simpl.
  { by intros [= <- <-]. }
  destruct (callf l _ _) as [[[v|e] s1]|] eqn:E; [..|done].
  - intros ->%IH. by apply Hcall in E.
  - intros [= <- <-]. by apply Hcall in E.
Qed.

(** ** Independence of events *)

(** C8, as stated, fails: the key of an event is [String(event)], and
    distinct identifiers can have the same string.  Two symbols with the
    same description, and the number 1 and the string '1', share a
    listener set: registering under one registers under the other, and
    emitting one invokes the listener registered under the other. *)
Lemma distinct_identifiers_share_a_key :
  ESym 0 "a" ≠ ESym 1 "a" ∧ ENum 1 ≠ EStr "1" ∧
  listeners_of fresh (js_String (ESym 1 "a")) = [] ∧
  listeners_of (on (ESym 0 "a") (FUser 0) fresh).2 (js_String (ESym 1 "a"))
    = [FUser 0] ∧
  listenerCount (EStr "1") (on (ENum 1) (FUser 0) fresh).2 = 1 ∧
  ∃ st',
    emit (call idle 1) (ENum 1) [] (on (EStr "1") (FUser 0) fresh).2
      = Some (Normal VUndefined, st') ∧
    calls_of (Sync 0) (log st') = [(FUser 0, VUndefined)].
Proof. split_and!; try done. eexists. split; by vm_compute. Qed.

(** C8, amended: for two identifiers whose strings differ, on, once, off
    and clear on the first leave the listener set of the second unchanged;
    so does emitAsync, which writes nothing to the registry, and so does
    emit unless a listener it calls changes it; and what an emission of the
    first invokes are listeners of the first's listener set. *)
Theorem distinct_keys_are_independent behaviour fuel event1 event2 l payload st :
  wf st →
  js_String event1 ≠ js_String event2 →
  let key2 := js_String event2 in
  listeners_of (on event1 l st).2 key2 = listeners_of st key2 ∧
  listeners_of (once event1 l st).2 key2 = listeners_of st key2 ∧
  listeners_of (off event1 l st).2 key2 = listeners_of st key2 ∧
  listeners_of (clear (Some event1) st) key2 = listeners_of st key2 ∧
  listeners_of (emitAsync event1 payload st).2 key2 = listeners_of st key2 ∧
  (∀ callf c st',
     (∀ l data s c s', callf l data s = Some (c, s') →
                       listeners_of s' key2 = listeners_of s key2) →
     emit callf event1 payload st = Some (c, st') →
     listeners_of st' key2 = listeners_of st key2) ∧
  (∀ c st' l' data,
     emit (call behaviour fuel) event1 payload st = Some (c, st') →
     (l', data) ∈ calls_of (Sync (emissions st)) (log st') →
     l' ∈ listeners_of st (js_String event1)) ∧
  (∀ acts st' l' data,
     steps behaviour acts (emitAsync event1 payload st).2 = Some st' →
     (l', data) ∈ calls_of (Async (emitAsync event1 payload st).1) (log st') →
     l' ∈ listeners_of st (js_String event1)).
Proof.
  intros Hwf Hne key2.
  assert (key2 ≠ js_String event1) as Hne' by done.
  pose proof Hwf as (Hreg & _).
  destruct (emission_calls behaviour fuel event1 payload st Hwf)
    as (Hsync & Hasync).
  split_and!.
  - by rewrite listeners_of_on, decide_False.
  - by rewrite listeners_of_once, decide_False.
  - by rewrite listeners_of_off, decide_False.
  - by rewrite listeners_of_clear, decide_False.
  - apply listeners_of_emitAsync.
  - intros callf c st' Hcall. by apply emit_frame.
  - intros c st' l' data (invoked & -> & Hpre & _)%Hsync.
    intros (? & [= <- _] & Hin)%list_elem_of_fmap.
    destruct Hpre as [k ->]. set_solver.
  - intros acts st' l' data (invoked & -> & Hpre & _)%Hasync.
    intros (? & [= <- _] & Hin)%list_elem_of_fmap.
    destruct Hpre as [k ->]. set_solver.
Qed.

Lemma distinct_keys_are_independent_witness :
  listeners_of (on (EStr "x") (FUser 9) (after idle three_on_z)).2 "z"
    = [FUser 0; FUser 1; FUser 2] ∧
  listeners_of (clear (Some (EStr "x")) (after idle three_on_z)) "z"
    = [FUser 0; FUser 1; FUser 2].
Proof.
  edestruct (distinct_keys_are_independent idle 1 (EStr "x") (EStr "z")
               (FUser 9) [] (after idle three_on_z))
    as (H1 & _ & _ & H4 & _).
  - apply after_wf. vm_compute. by eexists.
  - done.
  - split; (etrans; [eassumption|by vm_compute]).
Defined.

(** ** Counting listeners *)






Lemma listeners_of_NoDup st key : reg_wf st → NoDup (listeners_of st key).
Proof.
  intros Hwf. unfold listeners_of, set_at.
  destruct (listeners st !! key) as [a|]; [|constructor].
  destruct (heap st !! a) as [s|] eqn:E; [|constructor].
  simpl. by eapply reg_NoDup.
Qed.

Lemma listenerCount_listeners_of event st :
  listenerCount event st = length (listeners_of st (js_String event)).
Proof.
  unfold listenerCount, listeners_of. by destruct (listeners st !! _).
Qed.




(** * Further properties of the methods *)

(** ** [off] *)

Lemma alter_same {A} (f : A → A) (l : list A) i x :
  l !! i = Some x → f x = x → alter f i l = l.
Proof.
  intros Hi Hf. apply list_eq. intros j. rewrite list_lookup_alter.
  case_decide; subst; [|done]. by rewrite Hi; simpl; rewrite Hf.
Qed.

Lemma listeners_of_lookup st key a :
  reg_wf st → listeners st !! key = Some a →
  heap st !! a = Some (listeners_of st key) ∧ listeners_of st key ≠ [].
Proof.
  intros Hwf Hk. destruct (reg_nonempty _ Hwf _ _ Hk) as (s & Hs & Hne).
  unfold listeners_of, set_at. by rewrite Hk, Hs.
Qed.

Lemma off_has event l st :
  reg_wf st →
  (off event l st).1 = bool_decide (l ∈ listeners_of st (js_String event)).
Proof.
  intros Hwf. unfold off, listeners_of.
  destruct (listeners st !! js_String event) as [a|] eqn:E; [done|].
  cbn [fst]. symmetry. apply bool_decide_eq_false_2, not_elem_of_nil.
Qed.

Lemma off_absent event l st :
  reg_wf st →
  l ∉ listeners_of st (js_String event) → off event l st = (false, st).
Proof.
  intros Hwf Hl. unfold off.
  destruct (listeners st !! js_String event) as [a|] eqn:E; [|done].
  destruct (listeners_of_lookup _ _ _ Hwf E) as [Hs Hne].
  assert (set_at st a = listeners_of st (js_String event)) as Hset
    by (unfold set_at; by rewrite Hs).
  unfold JSSet.has. rewrite Hset, bool_decide_eq_false_2 by done. f_equal.
  rewrite delete_from_unfold.
  rewrite (alter_same _ _ _ _ Hs) by by apply JSSetFacts.delete_absent.
  rewrite Hs. simpl. rewrite decide_False.
  - by destruct st.
  - unfold JSSet.size. by destruct (listeners_of st (js_String event)).
Qed.

(** X1: off returns whether the listener was in the event's listener set;
    when it was not (the event has no set, or the set does not hold it)
    off returns false and the emitter is exactly as before. *)
Theorem off_reports_removal event l st :
  reg_wf st →
  (off event l st).1 = bool_decide (l ∈ listeners_of st (js_String event)) ∧
  (l ∉ listeners_of st (js_String event) → off event l st = (false, st)).
Proof. intros Hwf. split; [by apply off_has|by apply off_absent]. Qed.

Lemma off_reports_removal_witness :
  off (EStr "message") (FUser 0) fresh = (false, fresh) ∧
  (off (EStr "x") (FUser 1) (after idle three_on_x)).1 = true.
Proof.
  split.
  - apply (off_reports_removal (EStr "message") (FUser 0) fresh fresh_reg_wf).
    change (FUser 0 ∉ []). apply not_elem_of_nil.
  - etrans; [apply (off_reports_removal (EStr "x") (FUser 1)
                      (after idle three_on_x))|by vm_compute].
    apply after_wf. vm_compute. by eexists.
Defined.

(** ** Counting *)

(** X2: on adds one to the listenerCount of its event when the listener is
    new to it and nothing otherwise; off takes one away when the listener
    was registered and nothing otherwise; hasListeners is true exactly when
    the listener set has a member, so it is true after on. *)
Theorem listenerCount_after_on_off event l st :
  reg_wf st →
  let registered := l ∈ listeners_of st (js_String event) in
  listenerCount event (on event l st).2 =
    listenerCount event st + (if decide registered then 0 else 1) ∧
  listenerCount event (off event l st).2 =
    listenerCount event st - (if decide registered then 1 else 0) ∧
  (hasListeners event st = true ↔
     ∃ l', l' ∈ listeners_of st (js_String event)) ∧
  hasListeners event (on event l st).2 = true.
Proof.
  intros Hwf registered. subst registered.
  pose proof (listeners_of_NoDup st (js_String event) Hwf) as Hnd.
  unfold hasListeners. rewrite !bool_decide_eq_true.
  rewrite !listenerCount_listeners_of, listeners_of_on, listeners_of_off by done.
  destruct (decide (js_String event = js_String event)) as [_|?]; [|done].
  assert (0 < length (listeners_of st (js_String event)) ↔
          ∃ l', l' ∈ listeners_of st (js_String event)) as Hhas.
  { destruct (listeners_of st (js_String event)) as [|l' s]; simpl.
    - split; [lia|]. by intros [? ?%not_elem_of_nil].
    - split; [|lia]. intros _. exists l'. by left. }
  destruct (decide (l ∈ listeners_of st (js_String event))) as [Hl|Hl].
  - rewrite JSSetFacts.add_present by done.
    pose proof (JSSetFacts.delete_length l _ Hnd Hl) as H.
    unfold JSSet.size in H. split_and!; [lia|lia|done|].
    apply Hhas. eauto.
  - rewrite JSSetFacts.delete_absent by done.
    unfold JSSet.add. rewrite decide_False, length_app by done. simpl.
    split_and!; [lia|lia|done|lia].
Qed.

Lemma listenerCount_after_on_off_witness :
  listenerCount (EStr "x") (on (EStr "x") (FUser 1) (after idle three_on_x)).2
    = 3 ∧
  listenerCount (EStr "x") (on (EStr "x") (FUser 7) (after idle three_on_x)).2
    = 4 ∧
  listenerCount (EStr "x") (off (EStr "x") (FUser 1) (after idle three_on_x)).2
    = 2.
Proof.
  assert (reg_wf (after idle three_on_x)) as Hwf.
  { apply after_wf. vm_compute. by eexists. }
  split_and!.
  - etrans; [apply (listenerCount_after_on_off _ _ _ Hwf)|by vm_compute].
  - etrans; [apply (listenerCount_after_on_off _ _ _ Hwf)|by vm_compute].
  - etrans; [apply (listenerCount_after_on_off _ _ _ Hwf)|by vm_compute].
Defined.

(** ** [on] and [off] together *)

Lemma add_new l s : l ∉ s → JSSet.add l s = s ++ [l].
Proof. intros. unfold JSSet.add. by rewrite decide_False. Qed.

Lemma delete_add_new l s : l ∉ s → JSSet.delete l (JSSet.add l s) = s.
Proof.
  intros Hl. rewrite add_new by done. unfold JSSet.delete.
  rewrite filter_app, filter_cons, decide_False by (by intros H; apply H).
  rewrite filter_nil, app_nil_r. by apply JSSetFacts.delete_absent.
Qed.

Lemma add_delete l s : JSSet.add l (JSSet.delete l s) = JSSet.delete l s ++ [l].
Proof.
  apply add_new. rewrite JSSetFacts.elem_of_delete. by intros [? _].
Qed.

(** X3: registering a listener that is new to the event and removing it
    again leaves every listener set as it was; removing a listener and
    registering it again puts it last in its event's set, behind the
    listeners that were registered after it. *)
Theorem on_off_round_trip event l st :
  reg_wf st →
  (l ∉ listeners_of st (js_String event) →
   ∀ key, listeners_of (off event l (on event l st).2).2 key
          = listeners_of st key) ∧
  (∀ key, listeners_of (on event l (off event l st).2).2 key =
          if decide (key = js_String event)
          then JSSet.delete l (listeners_of st key) ++ [l]
          else listeners_of st key).
Proof.
  intros Hwf. split.
  - intros Hl key.
    rewrite listeners_of_off, listeners_of_on by (done || by apply on_reg_wf).
    case_decide; subst; [|done]. by apply delete_add_new.
  - intros key.
    rewrite listeners_of_on, listeners_of_off by (done || by apply off_reg_wf).
    case_decide; subst; [|done]. apply add_delete.
Qed.

Lemma on_off_round_trip_witness :
  listeners_of (on (EStr "x") (FUser 0)
                  (off (EStr "x") (FUser 0) (after idle three_on_x)).2).2 "x"
    = [FUser 1; FUser 2; FUser 0].
Proof.
  etrans; [apply (on_off_round_trip (EStr "x") (FUser 0)
                    (after idle three_on_x))|by vm_compute].
  apply after_wf. vm_compute. by eexists.
Defined.

(** ** [clear] *)

Lemma off_each event ls st key :
  reg_wf st →
  (∀ x, x ∈ listeners_of st (js_String event) → x ∈ ls) →
  listeners_of (foldl (λ s l, (off event l s).2) st ls) key =
    if decide (key = js_String event) then [] else listeners_of st key.
Proof.
  revert st. induction ls as [|l ls IH]; intros st Hwf Hsub; simpl.
  - case_decide; subst; [|done].
    destruct (listeners_of st (js_String event)) as [|x s] eqn:E; [done|].
    exfalso. eapply not_elem_of_nil, (Hsub x). by left.
  - rewrite IH.
    + case_decide; [done|]. by rewrite listeners_of_off, decide_False.
    + by apply off_reg_wf.
    + intros x. rewrite listeners_of_off, decide_True by done.
      intros [Hne Hx%Hsub]%JSSetFacts.elem_of_delete.
      by apply elem_of_cons in Hx as [?|?].
Qed.

(** X4: clear(event) leaves every listener set as calling off(event, l)
    for each listener l of the event would; afterwards the event has no
    listeners.  clear() leaves no event with listeners. *)
Theorem clear_is_off_for_each event st :
  reg_wf st →
  (∀ key,
     listeners_of (clear (Some event) st) key =
     listeners_of (foldl (λ s l, (off event l s).2) st
                         (listeners_of st (js_String event))) key) ∧
  listenerCount event (clear (Some event) st) = 0 ∧
  hasListeners event (clear (Some event) st) = false ∧
  (∀ event', listenerCount event' (clear None st) = 0 ∧
             hasListeners event' (clear None st) = false).
Proof.
  intros Hwf.
  assert (listenerCount event (clear (Some event) st) = 0) as H0.
  { by rewrite listenerCount_listeners_of, listeners_of_clear, decide_True. }
  assert (∀ event', listenerCount event' (clear None st) = 0) as Hall.
  { intros event'. unfold listenerCount. simpl. by rewrite lookup_empty. }
  split_and!.
  - intros key. by rewrite listeners_of_clear, off_each.
  - done.
  - unfold hasListeners. rewrite H0. apply bool_decide_eq_false_2. lia.
  - intros event'. split; [done|].
    unfold hasListeners. rewrite Hall. apply bool_decide_eq_false_2. lia.
Qed.

Lemma clear_is_off_for_each_witness :
  listeners_of (clear (Some (EStr "x")) (after idle three_on_x)) "x" = [] ∧
  listeners_of
    (off (EStr "x") (FUser 2)
       (off (EStr "x") (FUser 1)
          (off (EStr "x") (FUser 0) (after idle three_on_x)).2).2).2 "x" = [].
Proof.
  assert (reg_wf (after idle three_on_x)) as Hwf.
  { apply after_wf. vm_compute. by eexists. }
  destruct (clear_is_off_for_each (EStr "x") _ Hwf) as (H & _).
  split; [by vm_compute|].
  etrans; [|etrans; [symmetry; apply (H "x"%string)|by vm_compute]].
  by vm_compute.
Defined.

(** ** [emit] without listeners *)

(** X5: when the event has no listeners, emit returns without calling
    anything and leaves the emitter exactly as it was, whatever the
    payload. *)
Theorem emit_without_listeners callf event payload st :
  reg_wf st →
  listenerCount event st = 0 →
  emit callf event payload st = Some (Normal VUndefined, st).
Proof.
  intros Hwf. unfold listenerCount, emit.
  destruct (listeners st !! js_String event) as [a|] eqn:E; [|done].
  destruct (reg_nonempty _ Hwf _ _ E) as (s & Hs & Hne).
  unfold set_at, JSSet.size. rewrite Hs. simpl. by destruct s.
Qed.

Lemma emit_without_listeners_witness :
  emit (call thrower 1) (EStr "y") [VNum 1] (after thrower three_on_x)
    = Some (Normal VUndefined, after thrower three_on_x).
Proof.
  apply emit_without_listeners; [|by vm_compute].
  apply after_wf. vm_compute. by eexists.
Defined.

(** ** The closure returned by [on], in general *)

Lemma delete_delete_listener l s : JSSet.delete l (JSSet.delete l s) = JSSet.delete l s.
Proof.
  apply JSSetFacts.delete_absent. rewrite JSSetFacts.elem_of_delete. by intros [? _].
Qed.

Lemma delete_from_twice key a l st :
  delete_from key a l (delete_from key a l st) = delete_from key a l st.
Proof.
  rewrite (delete_from_unfold key a l (delete_from key a l st)).
  rewrite delete_from_unfold. simpl.
  assert (alter (JSSet.delete l) a (alter (JSSet.delete l) a (heap st)) =
          alter (JSSet.delete l) a (heap st)) as ->.
  { rewrite list_alter_alter_eq. apply list_alter_ext; [|done].
    intros s _. apply delete_delete_listener. }
  case_decide; [|done]. by rewrite delete_delete_eq.
Qed.

(** X6: calling the closure returned by on (or once) twice in a row is
    calling it once: the second call changes nothing. *)
Theorem unsubscribe_twice_in_a_row h st :
  unsubscribe h (unsubscribe h st) = unsubscribe h st.
Proof.
  unfold unsubscribe at 2 3. destruct (unsubs st !! h) as [u|] eqn:E.
  - unfold unsubscribe.
    replace (unsubs (delete_from (u_key u) (u_set u) (u_listener u) st))
      with (unsubs st) by by rewrite delete_from_unfold.
    rewrite E. apply delete_from_twice.
  - unfold unsubscribe. by rewrite E.
Qed.

(** X7: what the closure returned by on does to the listener sets, in any
    state.  It touches no event but its own.  For its own event: while the
    Set it captured is the one stored under the key, it removes its
    listener from the event's listener set, like off; once that Set is no
    longer the one stored, it removes nothing from the event's current
    listener set, but drops the whole current set when the captured Set,
    without the listener, is empty. *)
Theorem unsubscribe_listener_sets h u st key :
  reg_wf st →
  unsubs st !! h = Some u →
  listeners_of (unsubscribe h st) key =
    if decide (key = u_key u) then
      if decide (listeners st !! key = Some (u_set u))
      then JSSet.delete (u_listener u) (listeners_of st key)
      else if decide (JSSet.delete (u_listener u) (set_at st (u_set u)) = [])
           then []
           else listeners_of st key
    else listeners_of st key.
Proof.
  intros Hwf Hu. unfold unsubscribe. rewrite Hu.
  destruct (reg_unsubs _ Hwf _ _ Hu) as [Hlt Hown].
  destruct (decide (key = u_key u)) as [->|Hkey].
  - destruct (decide (listeners st !! u_key u = Some (u_set u))) as [Hk|Hk].
    { by rewrite (listeners_of_delete_from _ _ _ _ _ Hwf Hk), decide_True. }
    rewrite delete_from_unfold. unfold listeners_of, set_at. simpl.
    apply lookup_lt_is_Some in Hlt as [s Hs].
    rewrite list_lookup_alter_eq, Hs. simpl.
    destruct (JSSet.delete (u_listener u) s) as [|x s'] eqn:Hd.
    + rewrite !decide_True by done. by rewrite lookup_delete_eq.
    + rewrite !decide_False by done.
      destruct (listeners st !! u_key u) as [a'|] eqn:E; [|done].
      rewrite list_lookup_alter_ne; [done|]. intros <-. by apply Hk.
  - rewrite delete_from_unfold. unfold listeners_of, set_at. simpl.
    assert (∀ a', listeners st !! key = Some a' →
                  alter (JSSet.delete (u_listener u)) (u_set u) (heap st) !! a'
                  = heap st !! a') as Hother.
    { intros a' E. rewrite list_lookup_alter_ne; [done|].
      intros <-. by apply Hkey, Hown. }
    case_decide.
    + rewrite lookup_delete_ne by done.
      destruct (listeners st !! key) as [a'|] eqn:E; [|done]. by rewrite Hother.
    + destruct (listeners st !! key) as [a'|] eqn:E; [|done]. by rewrite Hother.
Qed.

Lemma unsubscribe_listener_sets_witness :
  listeners_of (unsubscribe 1 (after idle three_on_x)) "x"
    = [FUser 0; FUser 2] ∧
  listeners_of
    (unsubscribe 0
       (after idle [ARun 1 (script [OOn (EStr "x") 0; OClear (Some (EStr "x"));
                                    OOn (EStr "x") 1; OOn (EStr "x") 2])])) "x"
    = [].
Proof.
  split.
  - etrans; [eapply (unsubscribe_listener_sets 1 _ (after idle three_on_x))|].
    + apply after_wf. vm_compute. by eexists.
    + by vm_compute.
    + by vm_compute.
  - etrans; [eapply (unsubscribe_listener_sets 0)|].
    + apply after_wf. vm_compute. by eexists.
    + by vm_compute.
    + by vm_compute.
Defined.

Lemma unsubscribe_set_wrappers h f st :
  unsubscribe h (set_wrappers f st) = set_wrappers f (unsubscribe h st).
Proof.
  unfold unsubscribe. simpl. destruct (unsubs st !! h) as [u|]; [|done].
  rewrite !delete_from_unfold. simpl. by case_decide.
Qed.

(** X8: the closure called right after on has, on every listener set, the
    effect of off on the state before on: the listener is gone from the
    event, also when an earlier on had registered it.  The closure called
    right after once leaves every listener set as it was before once: the
    one-time listener is cancelled before it fires. *)
Theorem unsubscribe_right_after event l st key :
  wf st →
  listeners_of (unsubscribe (on event l st).1 (on event l st).2) key =
    listeners_of (off event l st).2 key ∧
  listeners_of (unsubscribe (once event l st).1 (once event l st).2) key =
    listeners_of st key.
Proof.
  intros (Hreg & Honce & _).
  assert (∀ l', listeners_of (unsubscribe (on event l' st).1 (on event l' st).2) key
            = if decide (key = js_String event)
              then JSSet.delete l' (JSSet.add l' (listeners_of st key))
              else listeners_of st key) as Hon.
  { intros l'.
    rewrite (unsubscribe_listener_sets _
               (mkUnsub (js_String event) (on_set event st) l'));
      [|by apply on_reg_wf|rewrite on_unfold; simpl; by rewrite list_lookup_middle].
    simpl. case_decide; subst; [|by rewrite listeners_of_on, decide_False].
    rewrite decide_True.
    - by rewrite listeners_of_on, decide_True.
    - rewrite on_unfold. unfold on_set. simpl.
      destruct (listeners st !! js_String event) eqn:E; [done|].
      by rewrite lookup_insert_eq. }
  split.
  - rewrite Hon, listeners_of_off by done. case_decide; [|done].
    destruct (decide (l ∈ listeners_of st key)).
    + by rewrite JSSetFacts.add_present.
    + rewrite delete_add_new by done. by rewrite JSSetFacts.delete_absent.
  - rewrite !once_unfold. cbn [fst snd]. rewrite unsubscribe_set_wrappers.
    change (listeners_of (set_wrappers ?f ?s) key) with (listeners_of s key).
    replace (length (unsubs st))
      with (on event (FOnce (length (wrappers st))) st).1
      by by rewrite on_unfold.
    rewrite Hon. case_decide; [|done]. apply delete_add_new.
    intros (a & s & _ & Hs & Hin)%elem_of_listeners_of.
    destruct (Honce _ _ _ Hs Hin) as (wr & _ & Hwr%lookup_lt_Some & _). lia.
Qed.

Lemma unsubscribe_right_after_witness :
  listeners_of
    (unsubscribe (once (EStr "x") (FUser 5) (after idle three_on_x)).1
                 (once (EStr "x") (FUser 5) (after idle three_on_x)).2) "x"
    = [FUser 0; FUser 1; FUser 2].
Proof.
  etrans; [apply (unsubscribe_right_after (EStr "x") (FUser 5)
                    (after idle three_on_x))|by vm_compute].
  apply after_wf. vm_compute. by eexists.
Defined.

(** ** [on], [off] and [emit] together *)

Lemma on_fields event l st :
  emissions (on event l st).2 = emissions st ∧ log (on event l st).2 = log st.
Proof. by rewrite on_unfold. Qed.

Lemma off_fields event l st :
  emissions (off event l st).2 = emissions st ∧ log (off event l st).2 = log st.
Proof.
  unfold off. destruct (listeners st !! _); [|done].
  by rewrite delete_from_unfold.
Qed.

(** X9: an emit call made right after on(event, L) that returns has
    invoked the listeners of the event each once, in the order of the
    listener set, L among them: last when it was new to the event, at its
    old place when it was registered already. *)
Theorem on_then_emit behaviour fuel event u payload st v st' :
  wf st →
  emit (call behaviour fuel) event payload (on event (FUser u) st).2
    = Some (Normal v, st') →
  let invoked := calls_of (Sync (emissions st)) (log st') in
  invoked = map (λ l, (l, first_arg payload))
                (JSSet.add (FUser u) (listeners_of st (js_String event))) ∧
  NoDup invoked ∧
  (FUser u, first_arg payload) ∈ invoked.
Proof.
  intros Hwf Hemit invoked.
  pose proof (on_user_wf event u st Hwf) as (Hreg' & _ & Hlog').
  destruct (emit_calls _ (call_sound behaviour fuel) _ _ _ _ _ Hlog' Hemit)
    as (ls & Hc & _ & Hall).
  rewrite (Hall v eq_refl), listeners_of_on, decide_True in Hc
    by (done || apply Hwf).
  rewrite (proj1 (on_fields _ _ _)) in Hc. fold invoked in Hc.
  split_and!.
  - done.
  - rewrite Hc. apply NoDup_fmap_2; [by intros ?? [= ->]|].
    apply JSSetFacts.add_NoDup, listeners_of_NoDup, Hwf.
  - rewrite Hc. apply list_elem_of_fmap. eexists. split; [done|].
    apply JSSetFacts.elem_of_add. by left.
Qed.

Lemma on_then_emit_witness :
  ∃ st',
    emit (call idle 1) (EStr "x") [VNum 5]
         (on (EStr "x") (FUser 4) (after idle three_on_x)).2
      = Some (Normal VUndefined, st') ∧
    calls_of (Sync 0) (log st') =
      [(FUser 0, VNum 5); (FUser 1, VNum 5); (FUser 2, VNum 5);
       (FUser 4, VNum 5)].
Proof.
  eexists. split; [by vm_compute|].
  edestruct (on_then_emit idle 1 (EStr "x") 4 [VNum 5] (after idle three_on_x))
    as (H & _).
  - apply after_wf. vm_compute. by eexists.
  - by vm_compute.
  - etrans; [exact H|by vm_compute].
Defined.

(** X10: off(event, L) takes L out of the listener set of the event, so
    an emit of the event made right after does not have L in its snapshot:
    the functions this emit call invokes are members of the old set other
    than L, in set order, whether it returns or throws.  This is about the
    functions the emit call itself invokes.  The body of L still runs
    during such an emit when a wrapper made by once(event, L) is registered
    (off does not remove the wrapper), or when a listener that is invoked
    calls the emitter again. *)
Theorem off_then_emit behaviour fuel event l payload st c st' :
  wf st →
  emit (call behaviour fuel) event payload (off event l st).2 = Some (c, st') →
  (l ∉ listeners_of (off event l st).2 (js_String event)) ∧
  ∃ invoked,
    calls_of (Sync (emissions st)) (log st')
      = map (λ x, (x, first_arg payload)) invoked ∧
    invoked `prefix_of` JSSet.delete l (listeners_of st (js_String event)) ∧
    l ∉ invoked.
Proof.
  intros Hwf Hemit.
  pose proof (off_wf event l st Hwf) as (_ & _ & Hlog').
  assert (listeners_of (off event l st).2 (js_String event) =
          JSSet.delete l (listeners_of st (js_String event))) as Hoff.
  { by rewrite listeners_of_off, decide_True by (done || apply Hwf). }
  assert (l ∉ JSSet.delete l (listeners_of st (js_String event))) as Hout.
  { by intros [? _]%JSSetFacts.elem_of_delete. }
  split; [by rewrite Hoff|].
  destruct (emit_calls _ (call_sound behaviour fuel) _ _ _ _ _ Hlog' Hemit)
    as (ls & Hc & Hpre & _).
  rewrite (proj1 (off_fields _ _ _)) in Hc. rewrite Hoff in Hpre.
  exists ls. split_and!; [done..|].
  intros Hin. apply Hout. destruct Hpre as [k ->]. set_solver.
Qed.

Lemma off_then_emit_witness :
  (FUser 0 ∉ listeners_of
     (after idle [ARun 1 (script [OOn (EStr "message") 0;
                                  OOn (EStr "message") 1;
                                  OOff (EStr "message") 0])]) "message") ∧
  ∃ invoked,
    calls_of (Sync 0)
      (log (after idle [ARun 1 (script [OOn (EStr "message") 0;
                                        OOn (EStr "message") 1;
                                        OOff (EStr "message") 0;
                                        OEmit (EStr "message") [VStr "test"]])]))
      = map (λ x, (x, VStr "test")) invoked ∧
    invoked `prefix_of` [FUser 1] ∧
    FUser 0 ∉ invoked.
Proof.
  apply (off_then_emit idle 1 (EStr "message") (FUser 0) [VStr "test"]
           (after idle [ARun 1 (script [OOn (EStr "message") 0;
                                        OOn (EStr "message") 1])])
           (Normal VUndefined)).
  - apply after_wf. vm_compute. by eexists.
  - by vm_compute.
Defined.

(** X11: when every listener of the event returns, each called in the
    state the one before it left, emit returns, and it has invoked all of
    them, once each and in the order of the listener set. *)
Theorem emit_delivers_to_all behaviour fuel event payload st st' :
  wf st →
  listeners_of st (js_String event) ≠ [] →
  delivered (call behaviour fuel) (Sync (emissions st)) (first_arg payload)
            (listeners_of st (js_String event)) (set_emissions S st) st' →
  emit (call behaviour fuel) event payload st = Some (Normal VUndefined, st') ∧
  calls_of (Sync (emissions st)) (log st') =
    map (λ l, (l, first_arg payload)) (listeners_of st (js_String event)).
Proof.
  intros (_ & _ & Hlog) Hne Hd. split.
  - unfold emit, JSSet.Array_from. unfold listeners_of in Hne, Hd.
    destruct (listeners st !! js_String event) as [a|]; [|done].
    rewrite <-(app_nil_r (set_at st a)).
    by rewrite (forEach_delivered _ _ _ _ _ _ _ Hd).
  - apply (delivered_calls _ (call_sound behaviour fuel)) in Hd as [Hc _];
      [|simpl; lia].
    simpl in Hc. by rewrite calls_of_fresh_sync in Hc.
Qed.

Lemma emit_delivers_to_all_witness :
  ∃ st',
    emit (call idle 1) (EStr "x") [VNum 5] (after idle three_on_x)
      = Some (Normal VUndefined, st') ∧
    calls_of (Sync 0) (log st') =
      [(FUser 0, VNum 5); (FUser 1, VNum 5); (FUser 2, VNum 5)].
Proof.
  eexists.
  edestruct (emit_delivers_to_all idle 1 (EStr "x") [VNum 5]
               (after idle three_on_x)) as (H1 & H2).
  - apply after_wf. vm_compute. by eexists.
  - by vm_compute.
  - replace (listeners_of (after idle three_on_x) (js_String (EStr "x")))
      with [FUser 0; FUser 1; FUser 2] by by vm_compute.
    repeat (eapply delivered_cons; [by vm_compute|]). apply delivered_nil.
  - split; [exact H1|]. etrans; [exact H2|by vm_compute].
Defined.

(** ** Properties kept by every method

    A property of the state that each method keeps, and that does not
    depend on the log and the [emit] counter, is kept by every call of a
    function, whatever user code does. *)

Section Preserved.
Variable P : State → Prop.
Hypothesis P_on : ∀ e u st, P st → P (on e (FUser u) st).2.
Hypothesis P_once : ∀ e u st, P st → P (once e (FUser u) st).2.
Hypothesis P_off : ∀ e u st, P st → P (off e (FUser u) st).2.
Hypothesis P_clear : ∀ e st, P st → P (clear e st).
Hypothesis P_unsubscribe : ∀ h st, P st → P (unsubscribe h st).
Hypothesis P_emitAsync : ∀ e payload st, P st → P (emitAsync e payload st).2.
Hypothesis P_log : ∀ id l data st, P st → P (log_invocation id l data st).
Hypothesis P_emissions : ∀ st, P st → P (set_emissions S st).

Lemma forEach_keeps callf id data ls st c st' :
  keeps P callf →
  forEach callf id data ls st = Some (c, st') → P st → P st'.
Proof.
  intros Hcall. revert st. induction ls as [|l ls IH]; intros st; simpl.
  { by intros [= <- <-]. }
  destruct (callf l data _) as [[[v|e] st1]|] eqn:E; [..|done].
  - intros Hf HP. eapply IH; [done|]. eapply Hcall; [done|]. by apply P_log.
  - intros [= <- <-] HP. eapply Hcall; [done|]. by apply P_log.
Qed.

Lemma emit_keeps callf event payload st c st' :
  keeps P callf →
  emit callf event payload st = Some (c, st') → P st → P st'.
Proof.
  intros Hcall. unfold emit.
  destruct (listeners st !! _); [|by intros [= <- <-]].
  intros Hf HP. eapply forEach_keeps; [done..|]. by apply P_emissions.
Qed.

Lemma exec_keeps callf op st r st' :
  keeps P callf → exec callf op st = Some (r, st') → P st → P st'.
Proof.
  intros Hcall. destruct op; simpl.
  - pose proof (P_on event u st). destruct (on _ _ _). by intros [= <- <-].
  - pose proof (P_once event u st). destruct (once _ _ _). by intros [= <- <-].
  - pose proof (P_off event u st). destruct (off _ _ _). by intros [= <- <-].
  - intros [= <- <-]. apply P_clear.
  - by intros [= <- <-].
  - by intros [= <- <-].
  - destruct (emit callf event payload st) as [[[] st1]|] eqn:E; [..|done];
      intros [= <- <-]; by eapply emit_keeps.
  - pose proof (P_emitAsync event payload st). destruct (emitAsync _ _ _).
    by intros [= <- <-].
  - intros [= <- <-]. apply P_unsubscribe.
Qed.

Lemma run_keeps callf prog st c st' :
  keeps P callf → run callf prog st = Some (c, st') → P st → P st'.
Proof.
  intros Hcall. revert st. induction prog as [c0|op k IH]; intros st; simpl.
  { by intros [= <- <-]. }
  destruct (exec callf op st) as [[r st1]|] eqn:E; [|done].
  intros Hrun HP. eapply IH; [done|]. by eapply exec_keeps.
Qed.

Lemma call_keeps behaviour fuel : keeps P (call behaviour fuel).
Proof.
  induction fuel as [|n IH]; intros l data st c st'; simpl; [done|].
  destruct l as [u|w].
  - by apply run_keeps.
  - destruct (wrappers st !! w) as [wr|]; [|by intros [= <- <-]].
    unfold call_wrapper.
    destruct (call behaviour n _ data st) as [[c1 st1]|] eqn:E; [|done].
    intros Hc HP.
    assert (st' = unsubscribe (w_unsubscribe wr) st1) as ->
      by (by destruct c1; injection Hc as <- <-).
    apply P_unsubscribe. by eapply IH.
Qed.

Hypothesis P_queue : ∀ q st, P st → P (set_queue (λ _, q) st).
Hypothesis P_settle : ∀ p s st, P st → P (settle p s st).
Hypothesis P_store : ∀ behaviour fuel p i slots s c st0 st,
  asyncs st0 !! p = Some slots → slots !! i = Some s →
  call behaviour fuel (slot_listener s) (slot_data s) st0 = Some (c, st) →
  P st0 → P st → P (store_result p i c st).

Lemma step_keeps behaviour a st st' :
  step behaviour a st = Some st' → P st → P st'.
Proof.
  destruct a as [fuel prog|fuel|p s]; simpl.
  - destruct (run _ prog st) as [[c st1]|] eqn:E; [|done].
    intros [= <-]. eapply run_keeps; [|done]. apply call_keeps.
  - unfold run_microtask.
    destruct (queue st) as [|[p i] q]; [by intros [= <-]|].
    destruct (asyncs st !! p ≫= _) as [s|] eqn:Hs.
    + destruct (call _ _ _ _ _) as [[c st1]|] eqn:E; [|done].
      intros [= <-] HP. apply bind_Some in Hs as (slots & Hp & Hi).
      assert (P (log_invocation (Async p) (slot_listener s) (slot_data s)
                   (set_queue (λ _, q) st))) as HP0
        by by apply P_log, P_queue.
      refine (P_store _ _ _ _ _ _ _ _ _ _ Hi E HP0 _); [exact Hp|].
      by eapply call_keeps.
    + intros [= <-]. apply P_queue.
  - intros [= <-]. apply P_settle.
Qed.

Lemma steps_keeps behaviour acts st st' :
  steps behaviour acts st = Some st' → P st → P st'.
Proof.
  revert st. induction acts as [|a acts IH]; intros st; simpl.
  { by intros [= <-]. }
  destruct (step behaviour a st) as [st1|] eqn:E; [|done].
  intros ? ?. eapply IH; [done|]. by eapply step_keeps.
Qed.
End Preserved.

(** ** A wrapper of [once] that has fired *)

Lemma retired_eq w st st' :
  heap st' = heap st → wrappers st' = wrappers st →
  retired w st → retired w st'.
Proof. intros Hh Hw. unfold retired. by rewrite Hh, Hw. Qed.

Lemma retired_on w e u st : retired w st → retired w (on e (FUser u) st).2.
Proof.
  intros [Hw Hout]. split; [by rewrite on_unfold|].
  intros a s Hs Hin.
  destruct (on_elem_of _ _ _ _ _ _ Hs Hin) as [[? _]|(s0 & Hs0 & Hin0)]; [done|].
  by eapply Hout.
Qed.

Lemma retired_once w e u st : retired w st → retired w (once e (FUser u) st).2.
Proof.
  intros [Hw Hout]. rewrite once_unfold. split.
  { rewrite on_unfold. simpl. rewrite length_app. lia. }
  intros a s Hs Hin. simpl in Hs.
  destruct (on_elem_of _ _ _ _ _ _ Hs Hin) as [[[= ->] _]|(s0 & Hs0 & Hin0)];
    [lia|by eapply Hout].
Qed.

Lemma retired_delete_from w key a l st :
  retired w st → retired w (delete_from key a l st).
Proof.
  intros [Hw Hout]. split; [by rewrite delete_from_unfold|].
  intros a' s Hs Hin.
  destruct (delete_from_elem_of _ _ _ _ _ _ _ Hs Hin) as [_ (s0 & Hs0 & Hin0)].
  by eapply Hout.
Qed.

Lemma retired_off w e u st : retired w st → retired w (off e (FUser u) st).2.
Proof.
  intros H. unfold off. destruct (listeners st !! _); [|done].
  by apply retired_delete_from.
Qed.

Lemma retired_unsubscribe w h st : retired w st → retired w (unsubscribe h st).
Proof.
  intros H. unfold unsubscribe. destruct (unsubs st !! _); [|done].
  by apply retired_delete_from.
Qed.

Lemma retired_call w behaviour fuel : keeps (retired w) (call behaviour fuel).
Proof.
  apply call_keeps.
  - apply retired_on.
  - apply retired_once.
  - apply retired_off.
  - intros e st. apply retired_eq; by destruct e.
  - apply retired_unsubscribe.
  - intros e payload st. apply retired_eq; by rewrite emitAsync_unfold.
  - intros id l data st. by apply retired_eq.
  - intros st. by apply retired_eq.
Qed.

Lemma retired_steps w behaviour acts st st' :
  steps behaviour acts st = Some st' → retired w st → retired w st'.
Proof.
  apply steps_keeps.
  - apply retired_on.
  - apply retired_once.
  - apply retired_off.
  - intros e s. apply retired_eq; by destruct e.
  - apply retired_unsubscribe.
  - intros e payload s. apply retired_eq; by rewrite emitAsync_unfold.
  - intros id l data s. by apply retired_eq.
  - intros s. by apply retired_eq.
  - intros q s. by apply retired_eq.
  - intros p s0 s. apply retired_eq; unfold settle; by destruct (promises s !! p).
  - intros _ _ p i _ _ c _ s _ _ _ _. by apply retired_eq.
Qed.

(** When the call of a wrapper has ended, the wrapper is retired. *)
Lemma call_wrapper_retires behaviour fuel w data st c st' :
  wf st → w < length (wrappers st) →
  call behaviour fuel (FOnce w) data st = Some (c, st') →
  retired w st'.
Proof.
  intros Hwf Hw. destruct fuel as [|n]; [done|]. simpl.
  apply lookup_lt_is_Some in Hw as [wr Hwr]. rewrite Hwr.
  unfold call_wrapper.
  destruct (call behaviour n _ data st) as [[c1 st1]|] eqn:E; [|done].
  intros Hc.
  assert (st' = unsubscribe (w_unsubscribe wr) st1) as ->
    by (by destruct c1; injection Hc as <- <-).
  apply call_sound in E as [Hext Hwf1].
  destruct (Hwf1 Hwf) as (_ & Honce & _).
  pose proof (prefix_lookup_Some _ _ _ _ Hwr (ext_wrappers _ _ _ Hext)) as Hwr1.
  split.
  { unfold unsubscribe. destruct (unsubs st1 !! _); [rewrite delete_from_unfold|];
      simpl; by eapply lookup_lt_Some. }
  intros a s Hs Hin. unfold unsubscribe in Hs.
  destruct (unsubs st1 !! w_unsubscribe wr) as [u|] eqn:Hu.
  - destruct (delete_from_elem_of _ _ _ _ _ _ _ Hs Hin) as [Hne (s0 & Hs0 & Hin0)].
    destruct (Honce _ _ _ Hs0 Hin0) as (wr' & u' & Hwr' & Hu' & Hl & Ha).
    rewrite Hwr1 in Hwr'. injection Hwr' as <-.
    rewrite Hu in Hu'. injection Hu' as <-. by apply Hne.
  - destruct (Honce _ _ _ Hs Hin) as (wr' & u' & Hwr' & Hu' & _).
    rewrite Hwr1 in Hwr'. injection Hwr' as <-. congruence.
Qed.

Lemma delivered_retired behaviour fuel w n data ls st st' :
  delivered (call behaviour fuel) (Sync n) data ls st st' →
  retired w st → retired w st'.
Proof.
  induction 1 as [|l ls st v st1 st2 Hcall _ IH]; [done|].
  intros H. apply IH.
  apply (retired_call _ _ _ _ _ _ _ _ Hcall), (retired_eq w st); done.
Qed.

Lemma delivered_retires behaviour fuel w n data ls st st' :
  delivered (call behaviour fuel) (Sync n) data ls st st' →
  wf st → n < emissions st → w < length (wrappers st) → FOnce w ∈ ls →
  retired w st'.
Proof.
  induction 1 as [|l ls st v st1 st2 Hcall Hrest IH];
    [by intros _ _ _ ?%not_elem_of_nil|].
  intros Hwf Hn Hw Hin.
  assert (wf (log_invocation (Sync n) l data st)) as Hwf0
    by by apply log_invocation_wf.
  destruct (call_sound _ _ _ _ _ _ _ Hcall) as [Hext Hwf1].
  destruct (decide (l = FOnce w)) as [->|Hne].
  - eapply delivered_retired; [done|]. by eapply call_wrapper_retires.
  - apply IH.
    + by apply Hwf1.
    + pose proof (ext_emissions _ _ _ Hext). simpl in *. lia.
    + pose proof (prefix_length _ _ (ext_wrappers _ _ _ Hext)). simpl in *. lia.
    + by apply elem_of_cons in Hin as [?|?].
Qed.

(** An emission does not invoke a function that is in no listener set
    when it starts. *)
Lemma unregistered_not_invoked behaviour l st :
  wf st →
  (∀ key, l ∉ listeners_of st key) →
  (∀ fuel event payload c st' data,
     emit (call behaviour fuel) event payload st = Some (c, st') →
     (l, data) ∉ calls_of (Sync (emissions st)) (log st')) ∧
  (∀ event payload acts st' data,
     steps behaviour acts (emitAsync event payload st).2 = Some st' →
     (l, data) ∉ calls_of (Async (emitAsync event payload st).1) (log st')).
Proof.
  intros Hwf Hout. split.
  - intros fuel event payload c st' data Hemit.
    destruct (emission_calls behaviour fuel event payload st Hwf) as [Hsync _].
    destruct (Hsync _ _ Hemit) as (invoked & -> & [k Hpre] & _).
    intros (l' & [= <- _] & Hin)%list_elem_of_fmap.
    apply (Hout (js_String event)). rewrite Hpre. set_solver.
  - intros event payload acts st' data Hsteps.
    destruct (emission_calls behaviour 0 event payload st Hwf) as [_ Hasync].
    destruct (Hasync _ _ Hsteps) as (invoked & -> & [k Hpre] & _).
    intros (l' & [= <- _] & Hin)%list_elem_of_fmap.
    apply (Hout (js_String event)). rewrite Hpre. set_solver.
Qed.

(** X12: when an emit call that has invoked the wrapper of a once has
    ended, returning or throwing, the wrapper is in no listener set, and it
    is in none in any state the emitter is in later; no emit and no
    emitAsync that starts afterwards invokes it.  Until then the listener
    can run more than once: an emission that took its snapshot while the
    wrapper was registered (a re-entrant emit made by the listener, an
    emitAsync in flight) invokes the wrapper as well. *)
Theorem once_wrapper_gone_after_emit
    behaviour fuel event payload st c st' w data acts st'' :
  wf st →
  emit (call behaviour fuel) event payload st = Some (c, st') →
  (FOnce w, data) ∈ calls_of (Sync (emissions st)) (log st') →
  steps behaviour acts st' = Some st'' →
  (∀ key, FOnce w ∉ listeners_of st'' key) ∧
  (∀ fuel' event' payload' c' st3 data',
     emit (call behaviour fuel') event' payload' st'' = Some (c', st3) →
     (FOnce w, data') ∉ calls_of (Sync (emissions st'')) (log st3)) ∧
  (∀ event' payload' acts' st3 data',
     steps behaviour acts' (emitAsync event' payload' st'').2 = Some st3 →
     (FOnce w, data') ∉
       calls_of (Async (emitAsync event' payload' st'').1) (log st3)).
Proof.
  intros Hwf Hemit Hin Hsteps.
  assert (retired w st') as Hret.
  { pose proof Hwf as (Hreg & Honce & Hlog).
    revert Hemit Hin. unfold emit.
    destruct (listeners st !! js_String event) as [a|] eqn:E.
    2:{ intros [= <- <-]. rewrite calls_of_fresh_sync by done.
        by intros ?%not_elem_of_nil. }
    destruct (reg_nonempty _ Hreg _ _ E) as (s & Hs & _).
    unfold JSSet.Array_from, set_at. rewrite Hs. simpl.
    assert (∀ x, FOnce x ∈ s → x < length (wrappers st)) as Hlen.
    { intros x Hx. destruct (Honce _ _ _ Hs Hx) as (? & ? & ?%lookup_lt_Some & _).
      done. }
    intros [[-> Hd]|(pre & l & post & e & st1 & -> & -> & Hd & Hl)]%forEach_inv
      Hin.
    - pose proof (delivered_calls _ (call_sound behaviour fuel) _ _ _ _ _ Hd)
        as [Hc _]; [simpl; lia|].
      simpl in Hc. rewrite calls_of_fresh_sync in Hc by done.
      rewrite Hc in Hin. apply list_elem_of_fmap in Hin as (? & [= <- _] & Hw).
      eapply delivered_retires; [done|by apply set_emissions_wf|simpl; lia| |done].
      by apply Hlen.
    - pose proof (delivered_calls _ (call_sound behaviour fuel) _ _ _ _ _ Hd)
        as [Hc Hn]; [simpl; lia|].
      simpl in Hc. rewrite calls_of_fresh_sync in Hc by done.
      pose proof (forEach_sound _ (call_sound behaviour fuel) (emissions st)
                    (first_arg payload) pre (set_emissions S st)
                    (Normal VUndefined) st1) as Hpre.
      rewrite <-(app_nil_r pre) in Hpre at 1.
      rewrite (forEach_delivered _ _ _ _ _ _ _ Hd) in Hpre.
      destruct Hpre as [Hext1 Hwf1]; [done|simpl; lia|].
      specialize (Hwf1 (set_emissions_wf _ Hwf)).
      assert (length (wrappers st) ≤ length (wrappers st1)) as Hws.
      { apply (prefix_length _ _ (ext_wrappers _ _ _ Hext1)). }
      destruct (call_sound _ _ _ _ _ _ _ Hl) as [Hext _].
      rewrite (calls_of_sync_ext _ _ _ _ Hext) in Hin by (simpl; lia).
      rewrite calls_of_log_invocation, decide_True, Hc in Hin by done.
      apply elem_of_app in Hin as [Hin|Hin].
      + apply list_elem_of_fmap in Hin as (? & [= <- _] & Hw).
        apply (retired_call _ _ _ _ _ _ _ _ Hl), (retired_eq w st1); [done..|].
        eapply delivered_retires; [done|by apply set_emissions_wf|simpl; lia| |done].
        apply Hlen. set_solver.
      + apply list_elem_of_singleton in Hin as [= <- _].
        eapply call_wrapper_retires; [|simpl|done].
        * by apply log_invocation_wf.
        * assert (w < length (wrappers st)) by (apply Hlen; set_solver).
          change (w < length (wrappers st1)). lia. }
  assert (∀ key, FOnce w ∉ listeners_of st'' key) as Hgone.
  { intros key (a & s & _ & Hs & Hw)%elem_of_listeners_of.
    destruct (retired_steps _ _ _ _ _ Hsteps Hret) as [_ Hout].
    by eapply Hout. }
  assert (wf st'') as Hwf''.
  { eapply steps_wf; [done|].
    by apply (emit_sound _ (call_sound behaviour fuel) _ _ _ _ _ Hemit). }
  split; [done|]. by apply unregistered_not_invoked.
Qed.

Lemma once_wrapper_gone_after_emit_witness :
  calls_of (Sync 1)
    (log (after idle
            [ARun 2 (script [OOnce (EStr "message") 3;
                             OEmit (EStr "message") [VStr "first"]]);
             ARun 2 (script [OEmit (EStr "message") [VStr "second"]])])) = [] ∧
  ∀ key, FOnce 0 ∉ listeners_of
    (after idle [ARun 2 (script [OOnce (EStr "message") 3;
                                 OEmit (EStr "message") [VStr "first"]]);
                 ARun 2 (script [OEmit (EStr "message") [VStr "second"]])])
    key.
Proof.
  split; [by vm_compute|].
  eapply (once_wrapper_gone_after_emit idle 2 (EStr "message") [VStr "first"]
            (after idle [ARun 2 (script [OOnce (EStr "message") 3])])
            _ _ 0 (VStr "first")
            [ARun 2 (script [OEmit (EStr "message") [VStr "second"]])]).
  - apply after_wf. vm_compute. by eexists.
  - by vm_compute.
  - vm_compute. by left.
  - by vm_compute.
Defined.

(** ** [once] and [emitAsync] *)

Lemma call_wrapper_undefined behaviour fuel w data st v st' :
  call behaviour fuel (FOnce w) data st = Some (Normal v, st') → v = VUndefined.
Proof.
  destruct fuel as [|n]; [done|]. simpl.
  destruct (wrappers st !! w) as [wr|]; [|done]. unfold call_wrapper.
  destruct (call behaviour n _ data st) as [[[] ?]|]; [|done..].
  by intros [= <- _].
Qed.

Lemma wrapper_slots_undefined_eq st st' :
  asyncs st' = asyncs st →
  wrapper_slots_undefined st → wrapper_slots_undefined st'.
Proof. intros E. unfold wrapper_slots_undefined. by rewrite E. Qed.

Lemma wrapper_slots_undefined_delete_from key a l st :
  wrapper_slots_undefined st → wrapper_slots_undefined (delete_from key a l st).
Proof. apply wrapper_slots_undefined_eq. by rewrite delete_from_unfold. Qed.

Lemma wrapper_slots_undefined_emitAsync e payload st :
  wrapper_slots_undefined st →
  wrapper_slots_undefined (emitAsync e payload st).2.
Proof.
  intros H p slots i s w v. rewrite emitAsync_unfold. simpl.
  rewrite lookup_snoc_Some. intros [[_ Hp]|[_ <-]]; [by eapply H|].
  by intros (l & -> & _)%list_lookup_fmap_Some.
Qed.

Lemma reachable_wrapper_slots_undefined behaviour st :
  reachable behaviour st → wrapper_slots_undefined st.
Proof.
  induction 1 as [|st a st' _ IH Hstep].
  { intros p slots i s w v. simpl. by rewrite lookup_nil. }
  revert Hstep IH. apply step_keeps.
  - intros e u s. apply wrapper_slots_undefined_eq. by rewrite on_unfold.
  - intros e u s. apply wrapper_slots_undefined_eq.
    by rewrite once_unfold, on_unfold.
  - intros e u s. unfold off. destruct (listeners s !! _); [|done].
    apply wrapper_slots_undefined_delete_from.
  - intros e s. apply wrapper_slots_undefined_eq. by destruct e.
  - intros h s. unfold unsubscribe. destruct (unsubs s !! _); [|done].
    apply wrapper_slots_undefined_delete_from.
  - apply wrapper_slots_undefined_emitAsync.
  - intros id l data s. by apply wrapper_slots_undefined_eq.
  - intros s. by apply wrapper_slots_undefined_eq.
  - intros q s. by apply wrapper_slots_undefined_eq.
  - intros p s0 s. apply wrapper_slots_undefined_eq.
    unfold settle. by destruct (promises s !! p).
  - intros b fuel p i slots s c st0 st1 Hp Hi Hcall _ H p' slots' i' s' w v.
    simpl. rewrite list_lookup_alter. case_decide as Hpp; subst; [|by apply H].
    destruct (asyncs st1 !! p') as [slots1|] eqn:Hp1; [|done]. simpl.
    intros [= <-]. rewrite list_lookup_alter.
    case_decide as Hii; subst; [|by eapply H].
    destruct (slots1 !! i') as [s1|] eqn:Hi1; [|done]. simpl.
    intros [= <-]. simpl. intros Hl [= ->].
    apply call_sound in Hcall as Hext. destruct Hext as [Hext _].
    pose proof (prefix_lookup_Some _ _ _ _ Hp (ext_asyncs _ _ _ Hext)) as Hp'.
    rewrite Hp1 in Hp'. injection Hp' as ->.
    rewrite Hi in Hi1. injection Hi1 as ->. rewrite Hl in Hcall.
    by eapply call_wrapper_undefined.
Qed.

(** X13: the outcome emitAsync reports for a listener registered with once
    never carries what the listener returned.  The wrapper has no return
    statement, so once its call has returned the outcome is ok with
    undefined, at once and whatever the listener returned, a promise
    included; no ok outcome of a wrapper carries any other value. *)
Theorem emitAsync_once_outcome_is_undefined behaviour st p slots i s w :
  reachable behaviour st →
  asyncs st !! p = Some slots → slots !! i = Some s →
  slot_listener s = FOnce w →
  (∀ v, slot_result s = Some (Normal v) → outcome_of st s = Some (Ok VUndefined)) ∧
  (∀ v, outcome_of st s = Some (Ok v) → v = VUndefined).
Proof.
  intros Hr%reachable_wrapper_slots_undefined Hp Hi Hl.
  assert (∀ v, slot_result s = Some (Normal v) → v = VUndefined) as Hv
    by (intros v; by eapply Hr).
  split.
  - intros v Hres. unfold outcome_of. rewrite Hres. by rewrite (Hv v Hres).
  - intros v. unfold outcome_of.
    destruct (slot_result s) as [[v'|e]|] eqn:Hres; [|done..].
    rewrite (Hv v' eq_refl). by intros [= <-].
Qed.

Lemma emitAsync_once_outcome_is_undefined_witness :
  emitAsync_result
    (after deferred [ARun 1 (script [OOnce (EStr "z") 7;
                                     OEmitAsync (EStr "z") []]);
                     AMicrotask 2])
    0 = Some (Fulfilled [Ok VUndefined]).
Proof.
  destruct (emitAsync_once_outcome_is_undefined deferred
              (after deferred [ARun 1 (script [OOnce (EStr "z") 7;
                                               OEmitAsync (EStr "z") []]);
                               AMicrotask 2])
              0 [mkSlot (FOnce 0) VUndefined (Some (Normal VUndefined))]
              0 (mkSlot (FOnce 0) VUndefined (Some (Normal VUndefined))) 0)
    as (H & _).
  - apply (reachable_steps deferred
             [ARun 1 (script [OOnce (EStr "z") 7; OEmitAsync (EStr "z") []]);
              AMicrotask 2] fresh); [apply reachable_fresh|by vm_compute].
  - by vm_compute.
  - done.
  - done.
  - apply emitAsync_result_fulfilled. eexists. split; [by vm_compute|].
    constructor; [|constructor]. by apply (H VUndefined).
Defined.

(** ** [off] and [once] *)

(** X14: off cannot remove a listener that was registered with once by
    naming the listener: what is registered is the wrapper.  Unless the
    listener is also registered by on, off(event, L) after once(event, L)
    returns false and leaves the emitter as it is, the wrapper still
    registered. *)
Theorem off_does_not_cancel_once event u st :
  wf st →
  FUser u ∉ listeners_of st (js_String event) →
  off event (FUser u) (once event (FUser u) st).2
    = (false, (once event (FUser u) st).2) ∧
  FOnce (length (wrappers st))
    ∈ listeners_of (once event (FUser u) st).2 (js_String event).
Proof.
  intros Hwf Hu.
  assert (reg_wf (once event (FUser u) st).2) as Hreg'
    by by apply once_wf_wf.
  pose proof (listeners_of_once event (FUser u) st (js_String event)
                (proj1 Hwf)) as Hls.
  rewrite decide_True in Hls by done.
  split.
  - apply off_absent; [done|]. rewrite Hls, JSSetFacts.elem_of_add.
    by intros [?|?].
  - rewrite Hls. apply JSSetFacts.elem_of_add. by left.
Qed.

Lemma off_does_not_cancel_once_witness :
  (off (EStr "x") (FUser 3) (once (EStr "x") (FUser 3) fresh).2).1 = false ∧
  listenerCount (EStr "x")
    (off (EStr "x") (FUser 3) (once (EStr "x") (FUser 3) fresh).2).2 = 1.
Proof.
  destruct (off_does_not_cancel_once (EStr "x") 3 fresh fresh_wf) as [H _].
  - change (FUser 3 ∉ []). apply not_elem_of_nil.
  - rewrite H. by vm_compute.
Defined.

(** ** [once] under [emitAsync] *)






(** ** The wrapper of [once], called in any state *)

(** X16: once(e, L) allocates a wrapper and registers it under e.
    Whenever the wrapper is called afterwards, in any state of the emitter
    (also in the middle of an emit call or of a microtask), it calls L with
    the payload it received and then runs the unsubscribe closure of its
    registration, whether L returned or threw: it rethrows what L threw
    and otherwise returns undefined, and after the call the wrapper is in
    the listener set of no event. *)
Theorem once_wrapper_unsubscribes_whatever_listener_does
    behaviour fuel event l data st0 st c st1 :
  wf st0 →
  let w := length (wrappers st0) in
  let h := (once event l st0).1 in
  wrappers (once event l st0).2 !! w = Some (mkWrapper l h) ∧
  FOnce w ∈ listeners_of (once event l st0).2 (js_String event) ∧
  (wf st →
   wrappers st !! w = Some (mkWrapper l h) →
   call behaviour fuel l data st = Some (c, st1) →
   call behaviour (S fuel) (FOnce w) data st =
     Some (match c with Normal _ => Normal VUndefined | Throw e => Throw e end,
           unsubscribe h st1) ∧
   ∀ key, FOnce w ∉ listeners_of (unsubscribe h st1) key).
Proof.
  intros Hwf0 w h. split_and!.
  - unfold w, h. rewrite once_unfold, on_unfold. simpl.
    by rewrite list_lookup_middle.
  - rewrite once_unfold. apply (on_registered event (FOnce w) st0), Hwf0.
  - intros Hwf Hw Hcall.
    assert (call behaviour (S fuel) (FOnce w) data st =
            Some (match c with
                  | Normal _ => Normal VUndefined
                  | Throw e => Throw e
                  end, unsubscribe h st1)) as Hwcall.
    { simpl. rewrite Hw. unfold call_wrapper. simpl. rewrite Hcall.
      by destruct c. }
    split; [done|].
    intros key (a & s & _ & Hs & Hin)%elem_of_listeners_of.
    destruct (call_wrapper_retires _ _ _ _ _ _ _ Hwf
                (lookup_lt_Some _ _ _ Hw) Hwcall) as [_ Hout].
    by eapply Hout.
Qed.

Lemma once_wrapper_unsubscribes_whatever_listener_does_witness :
  FOnce 0 ∈ listeners_of (once (EStr "x") (FUser 1) fresh).2 "x" ∧
  ∃ st2,
    call thrower 2 (FOnce 0) (VNum 1)
         (after thrower [ARun 1 (script [OOnce (EStr "x") 1; OOn (EStr "x") 2])])
      = Some (Throw (VError "boom"), st2) ∧
    listeners_of st2 "x" = [FUser 2] ∧
    ∀ key, FOnce 0 ∉ listeners_of st2 key.
Proof.
  edestruct (once_wrapper_unsubscribes_whatever_listener_does thrower 1
               (EStr "x") (FUser 1) (VNum 1) fresh
               (after thrower [ARun 1 (script [OOnce (EStr "x") 1;
                                               OOn (EStr "x") 2])]))
    as (_ & H1 & H2).
  - apply fresh_wf.
  - split; [exact H1|].
    destruct H2 as [H2 H3].
    + apply after_wf. vm_compute. by eexists.
    + by vm_compute.
    + by vm_compute.
    + eexists. split_and!; [exact H2|by vm_compute|exact H3].
Defined.
